(** * dumb-init: a shallow embedding of [dumb-init.c]

    The supervisor is modelled as sequential code over its global
    variables.  Every call into the operating system or the C library
    (fprintf, kill, fork, exec, waitpid, readdir, sscanf, getopt_long,
    getenv, sigtimedwait) is either recorded as an event or answered by
    an explicit environment value, so that each function below can be
    read side by side with the C function of the same name. *)

From Stdlib Require Import ZArith Lia Ascii String.
From stdpp Require Import base tactics option list strings.

Local Open Scope string_scope.
Local Open Scope list_scope.
Local Open Scope Z_scope.

(** ** Constants *)

(** [#define MAXSIG 64] *)
Definition MAXSIG : Z := 64.

(** Signal and errno numbers of <signal.h> and <errno.h>; the header is
    not part of the program, the values are the Linux ones (x86, ARM). *)
Definition SIGTERM : Z := 15.
Definition SIGCHLD : Z := 17.
Definition SIGSTOP : Z := 19.
Definition SIGTSTP : Z := 20.
Definition SIGTTIN : Z := 21.
Definition SIGTTOU : Z := 22.
Definition EINTR : Z := 4.
Definition EAGAIN : Z := 11.
Definition EINVAL : Z := 22.

(** The three special values a slot of [signal_rewrite] is compared or
    set to in the source (-1, 0 and -2), under the names the
    specification gives them. *)
Definition UNSET : Z := -1.
Definition IGNORE : Z := 0.
Definition ACTION : Z := -2.

(** ** Global variables *)

(** The file-scope variables of the program, together with the
    function-scope [static char bereaved] of [handle_signal].  The two
    arrays have [MAXSIG + 1] slots. *)
Record globals := mkGlobals {
  signal_rewrite : list Z;
  signal_action : list string;
  child_pid : Z;
  debug : bool;
  use_setsid : bool;
  survive_bereaving : bool;
  bereaved : bool
}.

(** The initialisers of the source. *)
Definition initial_globals : globals :=
  {| signal_rewrite := replicate 65 (-1);
     signal_action := replicate 65 EmptyString;
     child_pid := -1;
     debug := false;
     use_setsid := true;
     survive_bereaving := false;
     bereaved := false |}.

Definition set_signal_rewrite (t : list Z) (g : globals) : globals :=
  mkGlobals t (signal_action g) (child_pid g) (debug g) (use_setsid g)
            (survive_bereaving g) (bereaved g).
Definition set_signal_action (t : list string) (g : globals) : globals :=
  mkGlobals (signal_rewrite g) t (child_pid g) (debug g) (use_setsid g)
            (survive_bereaving g) (bereaved g).
Definition set_child_pid (p : Z) (g : globals) : globals :=
  mkGlobals (signal_rewrite g) (signal_action g) p (debug g) (use_setsid g)
            (survive_bereaving g) (bereaved g).
Definition set_debug (b : bool) (g : globals) : globals :=
  mkGlobals (signal_rewrite g) (signal_action g) (child_pid g) b (use_setsid g)
            (survive_bereaving g) (bereaved g).
Definition set_use_setsid (b : bool) (g : globals) : globals :=
  mkGlobals (signal_rewrite g) (signal_action g) (child_pid g) (debug g) b
            (survive_bereaving g) (bereaved g).
Definition set_survive_bereaving (b : bool) (g : globals) : globals :=
  mkGlobals (signal_rewrite g) (signal_action g) (child_pid g) (debug g)
            (use_setsid g) b (bereaved g).
Definition set_bereaved (b : bool) (g : globals) : globals :=
  mkGlobals (signal_rewrite g) (signal_action g) (child_pid g) (debug g)
            (use_setsid g) (survive_bereaving g) b.

(** Both arrays have their declared size. *)
Definition tables_ok (g : globals) : Prop :=
  length (signal_rewrite g) = 65%nat ∧ length (signal_action g) = 65%nat.

(** ** Observable effects *)

(** An argument of a printf-style call. *)
Inductive arg := AInt (z : Z) | AStr (s : string).

(** What the process does to the outside world, in program order.
    Format strings are kept as the source writes them: conversions and
    backslash escapes are not interpreted. *)
Inductive event :=
| EStderr (fmt : string) (args : list arg)   (* fprintf(stderr, fmt, args) *)
| EKill (pid sig : Z)                        (* kill(pid, sig) *)
| EFork (ret : Z)                            (* fork() returned ret *)
| EUnblockAll                                (* sigprocmask(SIG_UNBLOCK, all) *)
| EBlockAll                                  (* sigprocmask(SIG_BLOCK, all) *)
| ESignal (sig : Z)                          (* signal(sig, dummy) *)
| EIoctl (request : string) (ret : Z)        (* ioctl(STDIN_FILENO, request) *)
| ESetsid (ret : Z)                          (* setsid() returned ret *)
| EExec (file : string) (argv : list string). (* execlp / execvp *)

(** How a piece of code ends. *)
Inductive result (A : Type) :=
| Ret (a : A)          (* falls through or returns a *)
| Exit (code : Z)      (* exit(code), or main returning code *)
| Abort                (* a failed assert *)
| Image                (* exec succeeded; this program is gone *)
| Undefined.           (* out-of-bounds access or indeterminate read *)
Arguments Ret {A} a.
Arguments Exit {A} code.
Arguments Abort {A}.
Arguments Image {A}.
Arguments Undefined {A}.

(** Code over the globals that leaves a trace of events. *)
Definition M (A : Type) : Type := globals → result A * globals * list event.

Definition ret {A} (a : A) : M A := λ g, (Ret a, g, []).

Definition bind {A B} (m : M A) (k : A → M B) : M B := λ g,
  match m g with
  | (Ret a, g1, t1) =>
      match k a g1 with (r, g2, t2) => (r, g2, t1 ++ t2) end
  | (Exit c, g1, t1) => (Exit c, g1, t1)
  | (Abort, g1, t1) => (Abort, g1, t1)
  | (Image, g1, t1) => (Image, g1, t1)
  | (Undefined, g1, t1) => (Undefined, g1, t1)
  end.

Notation "'do' x <- m ; k" := (bind m (λ x, k))
  (at level 10, x name, m at level 100, k at level 200).
Notation "m ;; k" := (bind m (λ _, k))
  (at level 100, k at level 200, right associativity).

Definition get {A} (f : globals → A) : M A := λ g, (Ret (f g), g, []).
Definition modify (f : globals → globals) : M unit := λ g, (Ret tt, f g, []).
Definition emit (e : event) : M unit := λ g, (Ret tt, g, [e]).
Definition exit {A} (code : Z) : M A := λ g, (Exit code, g, []).
Definition abort {A} : M A := λ g, (Abort, g, []).
Definition image {A} : M A := λ g, (Image, g, []).
Definition undefined {A} : M A := λ g, (Undefined, g, []).

(** [assert(c)] with assertions enabled (the build does not define NDEBUG). *)
Definition assert (c : bool) : M unit := if c then ret tt else abort.

(** Array reads and writes; an index outside the array is undefined in C. *)
Definition in_bounds (i : Z) : bool := (0 <=? i) && (i <=? MAXSIG).

Definition read_rewrite (i : Z) : M Z := λ g,
  if in_bounds i then
    match signal_rewrite g !! Z.to_nat i with
    | Some v => (Ret v, g, [])
    | None => (Undefined, g, [])
    end
  else (Undefined, g, []).

Definition read_action (i : Z) : M string := λ g,
  if in_bounds i then
    match signal_action g !! Z.to_nat i with
    | Some v => (Ret v, g, [])
    | None => (Undefined, g, [])
    end
  else (Undefined, g, []).

Definition write_rewrite (i v : Z) : M unit := λ g,
  if in_bounds i then
    match signal_rewrite g !! Z.to_nat i with
    | Some _ =>
        (Ret tt, set_signal_rewrite (<[Z.to_nat i := v]> (signal_rewrite g)) g, [])
    | None => (Undefined, g, [])
    end
  else (Undefined, g, []).

Definition write_action (i : Z) (v : string) : M unit := λ g,
  if in_bounds i then
    match signal_action g !! Z.to_nat i with
    | Some _ =>
        (Ret tt, set_signal_action (<[Z.to_nat i := v]> (signal_action g)) g, [])
    | None => (Undefined, g, [])
    end
  else (Undefined, g, []).

(** [#define PRINTERR(...)] and [#define DEBUG(...)]. *)
Definition PRINTERR (fmt : string) (args : list arg) : M unit :=
  emit (EStderr ("[dumb-init] " +:+ fmt) args).

Definition DEBUG (fmt : string) (args : list arg) : M unit :=
  do d <- get debug;
  if d then PRINTERR fmt args else ret tt.

(** ** Forwarding *)

Definition translate_signal (signum : Z) : M Z :=
  if (signum <=? 0) || (signum >? MAXSIG) then ret signum
  else
    do translated <- read_rewrite signum;
    if translated =? -1 then ret signum
    else
      DEBUG "Translating signal %d to %d.\n" [AInt signum; AInt translated] ;;
      ret translated.

(** What the environment answers during one run of the signal handler. *)
Record env := mkEnv {
  env_waitpid : list (Z * Z);       (* successive waitpid(-1, &status, WNOHANG): return value, status *)
  env_fork : Z;                     (* return value of the fork in do_action *)
  env_exec_ok : bool;               (* whether execlp replaces the image *)
  env_strerror : string;            (* strerror(errno) after a failed exec *)
  env_proc : option (list string);  (* names readdir yields for /proc; None when opendir fails *)
  env_getpid : Z                    (* getpid() *)
}.

(** [do_action] declares a local [child_pid] holding the result of its
    own fork; the global of the same name is not assigned. *)
Definition do_action (e : env) (signum : Z) : M unit :=
  (do d <- get debug;
   if d then
     do a <- read_action signum;
     PRINTERR "Action for signal %d: running %s\n" [AInt signum; AStr a]
   else ret tt) ;;
  let child_pid := env_fork e in
  emit (EFork child_pid) ;;
  if child_pid <? 0 then
    PRINTERR "Unable to fork. Exiting.\n" [] ;;
    exit 1
  else if child_pid =? 0 then
    (* child *)
    emit EUnblockAll ;;
    do a <- read_action signum;
    emit (EExec "/bin/bash" ["/bin/bash"; "-c"; a]) ;;
    if env_exec_ok e then image
    else
      (* if this point is reached, exec failed, so we should exit nonzero *)
      PRINTERR "Could not exec %s: %s\n" [AStr a; AStr (env_strerror e)] ;;
      exit 1
  else ret tt.

Definition forward_signal (e : env) (signum : Z) : M unit :=
  do new_signum <- translate_signal signum;
  if new_signum =? -2 then
    do_action e signum
  else if negb (new_signum =? -1) then
    do s <- get use_setsid;
    do p <- get child_pid;
    emit (EKill (if s then - p else p) new_signum) ;;
    DEBUG "Forwarded signal %d to children.\n" [AInt new_signum]
  else
    DEBUG "Not forwarding signal %d to children (ignored).\n" [AInt new_signum].

(** ** The wait status macros of <sys/wait.h>

    The header is not part of the program; these are the definitions of
    the GNU C library for Linux. *)
Definition WTERMSIG (status : Z) : Z := Z.land status 127.
Definition WEXITSTATUS (status : Z) : Z := Z.shiftr (Z.land status 65280) 8.
Definition WIFEXITED (status : Z) : bool := WTERMSIG status =? 0.
(** [((signed char) (((status) & 0x7f) + 1) >> 1) > 0] *)
Definition WIFSIGNALED (status : Z) : bool :=
  let t := Z.land status 127 + 1 in
  let sc := if t >? 127 then t - 256 else t in
  Z.shiftr sc 1 >? 0.

(** ** Counting processes *)

(** [isdigit] in the C locale. *)
Definition isdigit (c : ascii) : bool :=
  let n := nat_of_ascii c in ((48 <=? n) && (n <=? 57))%nat.

(** The inner [for] loop over [ep->d_name]: [nonnumber]. *)
Fixpoint nonnumber (d_name : string) : bool :=
  match d_name with
  | EmptyString => false
  | String c rest => if negb (isdigit c) then true else nonnumber rest
  end.

(** The [while ((ep = readdir (dp)) != NULL)] loop. *)
Fixpoint process_count_loop (entries : list string) (count : Z) : M Z :=
  match entries with
  | [] => ret count
  | d_name :: entries' =>
      if negb (nonnumber d_name) then
        DEBUG "/proc/%s is a process\n" [AStr d_name] ;;
        let count := count + 1 in
        if count >? 1 then ret 2
        else process_count_loop entries' count
      else process_count_loop entries' count
  end.

Definition process_count (e : env) : M Z :=
  match env_proc e with
  | Some entries => process_count_loop entries 0
  | None =>
      PRINTERR "Could not open /proc.\n" [] ;;
      ret (-1)
  end.

(** ** The signal handler *)

(** The [while ((killed_pid = waitpid(-1, &status, WNOHANG)) > 0)] loop.
    When the environment has no further answer, waitpid returns -1. *)
Fixpoint reap_loop (e : env) (ws : list (Z * Z)) : M unit :=
  match ws with
  | [] => ret tt
  | (killed_pid, status) :: ws' =>
      if killed_pid >? 0 then
        do exit_status <-
          (if WIFEXITED status then
             let exit_status := WEXITSTATUS status in
             DEBUG "A child with PID %d exited with exit status %d.\n"
                   [AInt killed_pid; AInt exit_status] ;;
             ret exit_status
           else
             assert (WIFSIGNALED status) ;;
             let exit_status := 128 + WTERMSIG status in
             DEBUG "A child with PID %d was terminated by signal %d.\n"
                   [AInt killed_pid; AInt (exit_status - 128)] ;;
             ret exit_status);
        do p <- get child_pid;
        (if killed_pid =? p then
           modify (set_bereaved true) ;;
           do sb <- get survive_bereaving;
           if negb sb then
             forward_signal e SIGTERM ;;  (* send SIGTERM to any remaining children *)
             DEBUG "Child exited with status %d. Goodbye.\n" [AInt exit_status] ;;
             exit exit_status
           else
             DEBUG "Child exited with status %d. Stay alive for your grandchildren.\n"
                   [AInt exit_status]
         else ret tt) ;;
        reap_loop e ws'
      else ret tt
  end.

Definition handle_signal (e : env) (signum : Z) : M unit :=
  DEBUG "Received signal %d.\n" [AInt signum] ;;
  if signum =? SIGCHLD then
    reap_loop e (env_waitpid e) ;;
    do b <- get bereaved;
    do sb <- get survive_bereaving;
    if b && sb then
      do pc <- process_count e;
      DEBUG "Process count: %d\n" [AInt pc] ;;
      if pc <=? 1 then
        DEBUG "No process left, exitting.\n" [] ;;
        exit 0
      else ret tt
    else ret tt
  else
    forward_signal e signum ;;
    if (signum =? SIGTSTP) || (signum =? SIGTTOU) || (signum =? SIGTTIN) then
      DEBUG "Suspending self due to TTY signal.\n" [] ;;
      emit (EKill (env_getpid e) SIGSTOP)
    else ret tt.

(** ** Command-line parsing *)

(** *** sscanf

    The two calls of the program, [sscanf(arg, "%d:%d", ...)] and
    [sscanf(arg, "%d:%n", ...)], after ISO C 7.21.6.2: [%d] skips white
    space, then takes an optional sign and a non-empty run of decimal
    digits; a conversion whose value does not fit the [int] it is stored
    in is undefined. *)
Definition EOF : Z := -1.

Definition isspace (c : ascii) : bool :=
  let n := nat_of_ascii c in ((n =? 32) || ((9 <=? n) && (n <=? 13)))%nat.

Fixpoint skip_space (s : string) : string :=
  match s with
  | String c rest => if isspace c then skip_space rest else s
  | EmptyString => s
  end.

Fixpoint scan_digits (s : string) (acc : Z) : Z * string :=
  match s with
  | String c rest =>
      if isdigit c
      then scan_digits rest (10 * acc + (Z.of_nat (nat_of_ascii c) - 48))
      else (acc, s)
  | EmptyString => (acc, s)
  end.

Inductive conversion :=
| ConvEOF                          (* input ended before the item *)
| ConvMismatch                     (* the item is not a decimal integer *)
| ConvInt (v : Z) (rest : string). (* value, and the input after it *)

Definition scan_d (s : string) : conversion :=
  match skip_space s with
  | EmptyString => ConvEOF
  | String c rest as s1 =>
      let '(neg, s2) :=
        if Ascii.eqb c "-" then (true, rest)
        else if Ascii.eqb c "+" then (false, rest)
        else (false, s1) in
      match s2 with
      | String d _ =>
          if isdigit d then
            let '(v, rest') := scan_digits s2 0 in
            ConvInt (if neg then - v else v) rest'
          else ConvMismatch
      | EmptyString => ConvMismatch
      end
  end.

Definition fits_int (v : Z) : bool := (-2147483648 <=? v) && (v <=? 2147483647).

(** The result of a call: [None] when it is undefined, else the return
    value and the values stored through the pointer arguments, in order
    (a pointer whose directive was not reached is written nothing).  The
    return value of a call that assigns nothing is [EOF] or 0; the
    program only tests for 1 and 2. *)
Definition sscanf_d_colon_d (arg : string) : option (Z * list Z) :=
  match scan_d arg with
  | ConvEOF => Some (EOF, [])
  | ConvMismatch => Some (0, [])
  | ConvInt a rest =>
      if negb (fits_int a) then None
      else
        match rest with
        | String c rest' =>
            if Ascii.eqb c ":" then
              match scan_d rest' with
              | ConvInt b _ => if fits_int b then Some (2, [a; b]) else None
              | _ => Some (1, [a])
              end
            else Some (1, [a])
        | EmptyString => Some (1, [a])
        end
  end.

(** [%n] stores the number of characters consumed so far and does not
    count as an assignment. *)
Definition sscanf_d_colon_n (arg : string) : option (Z * list Z) :=
  match scan_d arg with
  | ConvEOF => Some (EOF, [])
  | ConvMismatch => Some (0, [])
  | ConvInt a rest =>
      if negb (fits_int a) then None
      else
        match rest with
        | String c rest' =>
            if Ascii.eqb c ":"
            then Some (1, [a; Z.of_nat (String.length arg - String.length rest')])
            else Some (1, [a])
        | EmptyString => Some (1, [a])
        end
  end.

(** [&(arg[position])] read as a C string. *)
Fixpoint string_from (arg : string) (position : nat) : string :=
  match position, arg with
  | O, _ => arg
  | S n, String _ rest => string_from rest n
  | S _, EmptyString => EmptyString
  end.

(** *** Usage messages *)

Definition help_text : string :=
  "dumb-init v%s" +:+
  "Usage: %s [option] command [[arg] ...]\n" +:+
  "\n" +:+
  "dumb-init is a simple process supervisor that forwards signals to children.\n" +:+
  "It is designed to run as PID1 in minimal container environments.\n" +:+
  "\n" +:+
  "Optional arguments:\n" +:+
  "   -c, --single-child      Run in single-child mode.\n" +:+
  "                           In this mode, signals are only proxied to the\n" +:+
  "                           direct child and not any of its descendants.\n" +:+
  "   -b, --survive-bereaving Do not quit when the direct child dies.\n" +:+
  "   -r, --rewrite s:r       Rewrite received signal s to new signal r before proxying.\n" +:+
  "                           To ignore (not proxy) a signal, rewrite it to 0.\n" +:+
  "                           To rewrite all signals, rewrite (otherwise nonexistent) signal 0.\n" +:+
  "                           (Useful to ignore all signals, use '--rewrite 0:0').\n" +:+
  "                           This option can be specified multiple times.\n" +:+
  "   -a, --action s:exe      Run exe after receiving sinal s.\n" +:+
  "                           For example, -a '2:echo hi there'.\n" +:+
  "                           This option can be specified multiple times.\n" +:+
  "   -v, --verbose           Print debugging information to stderr.\n" +:+
  "   -h, --help              Print this help message and exit.\n" +:+
  "   -V, --version           Print the current version and exit.\n" +:+
  "\n" +:+
  "Full help is available online at https://github.com/Yelp/dumb-init\n".

(** [VERSION] comes from VERSION.h, which is generated by the build. *)
Definition print_help (VERSION argv0 : string) : M unit :=
  emit (EStderr help_text [AStr VERSION; AStr argv0]).

Definition print_rewrite_signum_help {A} : M A :=
  emit (EStderr
    ("Usage: -r option takes <signum>:<signum>, where <signum> " +:+
     "is between 0 and %d.\n" +:+
     "This option can be specified multiple times.\n" +:+
     "Use --help for full usage.\n")
    [AInt MAXSIG]) ;;
  exit 1.

Definition print_action_help {A} : M A :=
  emit (EStderr
    ("Usage: -a option takes <signum>:<path>, where <signum> " +:+
     "is between 1 and %d.\n" +:+
     "This option can be specified multiple times.\n" +:+
     "Use --help for full usage.\n")
    [AInt MAXSIG]) ;;
  exit 1.

(** *** The option handlers *)

(** [for (int i = 0; i <= MAXSIG; ++i) signal_rewrite[i] = replacement;]
    with [n] iterations left. *)
Fixpoint rewrite_all (n : nat) (i replacement : Z) : M unit :=
  match n with
  | O => ret tt
  | S n' => write_rewrite i replacement ;; rewrite_all n' (i + 1) replacement
  end.

Definition parse_rewrite_signum (arg : string) : M unit :=
  match sscanf_d_colon_d arg with
  | None => undefined
  | Some (2, [signum; replacement]) =>
      if ((0 <=? signum) && (signum <=? MAXSIG)) &&
         ((0 <=? replacement) && (replacement <=? MAXSIG))
      then
        if signum =? 0 then rewrite_all 65 0 replacement
        else write_rewrite signum replacement
      else print_rewrite_signum_help
  | Some _ => print_rewrite_signum_help
  end.

(** When the input has no colon after the number, sscanf still returns
    1 but [position] was never written; using it is undefined. *)
Definition parse_action (arg : string) : M unit :=
  match sscanf_d_colon_n arg with
  | None => undefined
  | Some (status, signum :: stored) =>
      if (status =? 1) && ((0 <=? signum) && (signum <=? MAXSIG)) then
        match stored with
        | [position] =>
            DEBUG "signal action: %d, position %d\n" [AInt signum; AInt position] ;;
            write_action signum (string_from arg (Z.to_nat position)) ;;
            write_rewrite signum (-2)
        | _ => undefined
        end
      else print_action_help
  | Some (_, []) => print_action_help
  end.

Definition set_rewrite_to_sigstop_if_not_defined (signum : Z) : M unit :=
  do v <- read_rewrite signum;
  if v =? -1 then write_rewrite signum SIGSTOP else ret tt.

(** *** parse_command *)

(** What [getopt_long(argc, argv, "+hvVcbr:a:", long_options, NULL)]
    returns on one call: an option letter, with [optarg] for -r and -a,
    or ['?'] for anything it does not accept. *)
Inductive getopt :=
| Opt_h | Opt_v | Opt_V | Opt_c | Opt_b
| Opt_r (optarg : string)
| Opt_a (optarg : string)
| Opt_unknown.

(** One invocation: the options getopt_long yields before it returns
    -1, the words from [argv[optind]] on, and the two environment
    variables the program reads. *)
Record cmdline := mkCmdline {
  cl_VERSION : string;
  cl_argv0 : string;
  cl_opts : list getopt;
  cl_cmd : list string;
  cl_DUMB_INIT_DEBUG : option string;
  cl_DUMB_INIT_SETSID : option string
}.

(** The [while ((opt = getopt_long(...)) != -1)] loop. *)
Fixpoint parse_options (cl : cmdline) (opts : list getopt) : M unit :=
  match opts with
  | [] => ret tt
  | opt :: opts' =>
      match opt with
      | Opt_h => print_help (cl_VERSION cl) (cl_argv0 cl) ;; exit 0
      | Opt_v => modify (set_debug true)
      | Opt_V => emit (EStderr "dumb-init v%s" [AStr (cl_VERSION cl)]) ;; exit 0
      | Opt_c => modify (set_use_setsid false)
      | Opt_r optarg => parse_rewrite_signum optarg
      | Opt_a optarg => parse_action optarg
      | Opt_b => modify (set_survive_bereaving true)
      | Opt_unknown => PRINTERR "Error while parsing arguments.\n" [] ;; exit 1
      end ;;
      parse_options cl opts'
  end.

(** The part of [parse_command] after the option loop. *)
Definition parse_command_tail (cl : cmdline) : M (list string) :=
  match cl_cmd cl with
  | [] =>
      emit (EStderr
        ("Usage: %s [option] program [args]\n" +:+
         "Try %s --help for full usage.\n")
        [AStr (cl_argv0 cl); AStr (cl_argv0 cl)]) ;;
      exit 1
  | _ :: _ => ret tt
  end ;;
  match cl_DUMB_INIT_DEBUG cl with
  | Some debug_env =>
      if String.eqb debug_env "1" then
        modify (set_debug true) ;;
        DEBUG "Running in debug mode.\n" []
      else ret tt
  | None => ret tt
  end ;;
  match cl_DUMB_INIT_SETSID cl with
  | Some setsid_env =>
      if String.eqb setsid_env "0" then
        modify (set_use_setsid false) ;;
        DEBUG "Not running in setsid mode.\n" []
      else ret tt
  | None => ret tt
  end ;;
  do s <- get use_setsid;
  (if s then
     set_rewrite_to_sigstop_if_not_defined SIGTSTP ;;
     set_rewrite_to_sigstop_if_not_defined SIGTTOU ;;
     set_rewrite_to_sigstop_if_not_defined SIGTTIN
   else ret tt) ;;
  ret (cl_cmd cl).

Definition parse_command (cl : cmdline) : M (list string) :=
  parse_options cl (cl_opts cl) ;;
  parse_command_tail cl.

(** ** main: the launcher and the signal pump *)

(** What the environment answers to the launcher. *)
Record launch := mkLaunch {
  la_ioctl_notty : Z;    (* ioctl(STDIN_FILENO, TIOCNOTTY) *)
  la_fork : Z;           (* fork() *)
  la_setsid : Z;         (* setsid() in the child *)
  la_ioctl_sctty : Z;    (* ioctl(STDIN_FILENO, TIOCSCTTY, 0) in the child *)
  la_exec_ok : bool;     (* whether execvp replaces the image *)
  la_errno : Z;
  la_strerror : string
}.

(** One turn of the pump: what sigtimedwait returns, [errno] when that
    is -1, and the environment of the handler run that follows. *)
Record turn := mkTurn {
  tu_signum : Z;
  tu_errno : Z;
  tu_env : env
}.

(** [for (i = 1; i <= MAXSIG; i++) signal(i, dummy);] with [n]
    iterations left. *)
Fixpoint install_dummy (n : nat) (i : Z) : M unit :=
  match n with
  | O => ret tt
  | S n' => emit (ESignal i) ;; install_dummy n' (i + 1)
  end.

(** The [for (;;)] loop of the parent, run on the turns given; it
    returns when they are used up and the supervisor is still waiting. *)
Fixpoint pump (turns : list turn) : M unit :=
  match turns with
  | [] => ret tt
  | t :: turns' =>
      do signum <-
        (if tu_signum t =? -1 then
           if tu_errno t =? EINVAL then
             PRINTERR "Invalid timeout, report this as a bug!\n" [] ;;
             exit 1
           else if tu_errno t =? EINTR then
             PRINTERR "Wait interrupted by a signal. This should never happen. Report this as a bug!\n" [] ;;
             exit 1
           else if tu_errno t =? EAGAIN then
             (* pretend timeout to be SIGCHLD, check if we want to continue running *)
             DEBUG "Heartbeat...\n" [] ;;
             ret SIGCHLD
           else ret (tu_signum t)
         else ret (tu_signum t));
      handle_signal (tu_env t) signum ;;
      pump turns'
  end.

Definition main (cl : cmdline) (la : launch) (turns : list turn) : M unit :=
  do cmd <- parse_command cl;
  emit EBlockAll ;;
  install_dummy 64 1 ;;
  (* detach dumb-init from controlling tty *)
  do s <- get use_setsid;
  (if s then
     emit (EIoctl "TIOCNOTTY" (la_ioctl_notty la)) ;;
     if la_ioctl_notty la =? -1 then
       DEBUG "Unable to detach from controlling tty (errno=%d %s).\n"
             [AInt (la_errno la); AStr (la_strerror la)]
     else ret tt
   else ret tt) ;;
  modify (set_child_pid (la_fork la)) ;;
  emit (EFork (la_fork la)) ;;
  do p <- get child_pid;
  if p <? 0 then
    PRINTERR "Unable to fork. Exiting.\n" [] ;;
    exit 1
  else if p =? 0 then
    (* child *)
    emit EUnblockAll ;;
    do s <- get use_setsid;
    (if s then
       emit (ESetsid (la_setsid la)) ;;
       (if la_setsid la =? -1 then
          PRINTERR "Unable to setsid (errno=%d %s). Exiting.\n"
                   [AInt (la_errno la); AStr (la_strerror la)] ;;
          exit 1
        else ret tt) ;;
       emit (EIoctl "TIOCSCTTY" (la_ioctl_sctty la)) ;;
       (if la_ioctl_sctty la =? -1 then
          DEBUG "Unable to attach to controlling tty (errno=%d %s).\n"
                [AInt (la_errno la); AStr (la_strerror la)]
        else ret tt) ;;
       DEBUG "setsid complete.\n" []
     else ret tt) ;;
    emit (EExec (hd EmptyString cmd) cmd) ;;
    if la_exec_ok la then image
    else
      (* if this point is reached, exec failed, so we should exit nonzero *)
      PRINTERR "%s: %s\n" [AStr (hd EmptyString cmd); AStr (la_strerror la)] ;;
      exit 2
  else
    (* parent *)
    DEBUG "Child spawned with PID %d.\n" [AInt p] ;;
    pump turns.

(** Running code from the initial globals. *)
Definition run {A} (m : M A) : result A * globals * list event := m initial_globals.

(** ** Vocabulary for the statements *)

(** The kill and fork calls of a trace, in order. *)
Definition kills (t : list event) : list (Z * Z) :=
  omap (λ ev, match ev with EKill p s => Some (p, s) | _ => None end) t.

Definition forks (t : list event) : list Z :=
  omap (λ ev, match ev with EFork r => Some r | _ => None end) t.

(** The first argument of the kill in [forward_signal]. *)
Definition target (g : globals) : Z :=
  if use_setsid g then - child_pid g else child_pid g.

(** What a [DEBUG] call adds to the trace. *)
Definition dbg (g : globals) (fmt : string) (args : list arg) : list event :=
  if debug g then [EStderr ("[dumb-init] " +:+ fmt) args] else [].

(** The exit status [handle_signal] computes from a wait status. *)
Definition exit_status_of (status : Z) : Z :=
  if WIFEXITED status then WEXITSTATUS status else 128 + WTERMSIG status.

(** The wait status is one the handler's assertion accepts. *)
Definition reapable (status : Z) : bool := WIFEXITED status || WIFSIGNALED status.

(** Everything but the [bereaved] flag is the same in [g] and [g']. *)
Definition same_config (g g' : globals) : Prop :=
  signal_rewrite g' = signal_rewrite g ∧ signal_action g' = signal_action g ∧
  child_pid g' = child_pid g ∧ debug g' = debug g ∧
  use_setsid g' = use_setsid g ∧ survive_bereaving g' = survive_bereaving g.

(** Code that writes no global other than [bereaved]. *)
Definition frames {A} (m : M A) : Prop := ∀ g, same_config g (m g).1.2.

(** The [DEBUG] line that opens [do_action]. *)
Definition dbg_action (g : globals) (S : Z) (a : string) : list event :=
  dbg g "Action for signal %d: running %s\n" [AInt S; AStr a].

(** Code that changes no global and calls no kill. *)
Definition quiet {A} (m : M A) : Prop :=
  ∀ g, (m g).1.2 = g ∧ kills (m g).2 = [].

(** The signal [S] is one of the three terminal stop signals. *)
Definition is_tty_signal (S : Z) : bool :=
  (S =? SIGTSTP) || (S =? SIGTTOU) || (S =? SIGTTIN).

(** The [DEBUG] line for one reaped child. *)
Definition dbg_reaped (g : globals) (w : Z * Z) : list event :=
  if WIFEXITED w.2 then
    dbg g "A child with PID %d exited with exit status %d.\n"
        [AInt w.1; AInt (WEXITSTATUS w.2)]
  else
    dbg g "A child with PID %d was terminated by signal %d.\n"
        [AInt w.1; AInt (128 + WTERMSIG w.2 - 128)].

(** A waitpid answer for a terminated child other than the direct one. *)
Definition other_child (g : globals) (w : Z * Z) : Prop :=
  w.1 > 0 ∧ w.1 ≠ child_pid g ∧ reapable w.2 = true.

(** The usage message of [print_action_help]. *)
Definition action_usage : event :=
  EStderr
    ("Usage: -a option takes <signum>:<path>, where <signum> " +:+
     "is between 1 and %d.\n" +:+
     "This option can be specified multiple times.\n" +:+
     "Use --help for full usage.\n")
    [AInt MAXSIG].

(** *** Vocabulary for the option parser *)

(** A -r argument that names signal [sr.1], from 1 to MAXSIG, and
    replacement [sr.2], from 0 to MAXSIG. *)
Definition single_rewrite (optarg : string) (sr : Z * Z) : Prop :=
  sscanf_d_colon_d optarg = Some (2, [sr.1; sr.2]) ∧
  1 ≤ sr.1 ≤ MAXSIG ∧ 0 ≤ sr.2 ≤ MAXSIG.

(** A table initialised with [R] in every slot and then overwritten at
    each [S] with the corresponding [R'], in the order given. *)
Definition rewritten_table (R : Z) (singles : list (Z * Z)) : list Z :=
  foldl (λ t sr, <[Z.to_nat sr.1 := sr.2]> t) (replicate 65 R) singles.

(** The replacement of the last pair for [S], or [R] when there is none. *)
Definition last_rewrite (R : Z) (singles : list (Z * Z)) (S : Z) : Z :=
  default R (last (omap (λ sr : Z * Z, if sr.1 =? S then Some sr.2 else None) singles)).

(** The command text an option stores in slot [S] of [signal_action]:
    that of an accepted -a option for [S]. *)
Definition action_of (S : Z) (o : getopt) : option string :=
  match o with
  | Opt_a optarg =>
      match sscanf_d_colon_n optarg with
      | Some (1, [signum; position]) =>
          if signum =? S then Some (string_from optarg (Z.to_nat position)) else None
      | _ => None
      end
  | _ => None
  end.

(** The value an option stores in slot [S] of [signal_rewrite]: -2 for
    an accepted -a option for [S], the replacement for an accepted -r
    option for [S] or for signal 0. *)
Definition slot_write (S : Z) (o : getopt) : option Z :=
  match o with
  | Opt_a _ =>
      match action_of S o with
      | Some _ => Some ACTION
      | None => None
      end
  | Opt_r optarg =>
      match sscanf_d_colon_d optarg with
      | Some (2, [signum; replacement]) =>
          if ((0 <=? signum) && (signum <=? MAXSIG)) &&
             ((0 <=? replacement) && (replacement <=? MAXSIG)) &&
             ((signum =? 0) || (signum =? S))
          then Some replacement else None
      | _ => None
      end
  | _ => None
  end.

(** The last command text stored in slot [S], and the last value
    written to slot [S], over a run of options. *)
Definition last_action (S : Z) (opts : list getopt) : option string :=
  last (omap (action_of S) opts).

Definition last_write (S : Z) (opts : list getopt) : option Z :=
  last (omap (slot_write S) opts).

(** The effect of [set_rewrite_to_sigstop_if_not_defined] on the table. *)
Definition sigstop_default (t : list Z) (S : Z) : list Z :=
  match t !! Z.to_nat S with
  | Some v => if v =? -1 then <[Z.to_nat S := SIGSTOP]> t else t
  | None => t
  end.

(** The globals after the two environment variables have been looked at. *)
Definition after_env (cl : cmdline) (g : globals) : globals :=
  let g1 :=
    match cl_DUMB_INIT_DEBUG cl with
    | Some debug_env => if String.eqb debug_env "1" then set_debug true g else g
    | None => g
    end in
  match cl_DUMB_INIT_SETSID cl with
  | Some setsid_env => if String.eqb setsid_env "0" then set_use_setsid false g1 else g1
  | None => g1
  end.

(** The three calls made in setsid mode. *)
Definition sigstop_defaults (t : list Z) : list Z :=
  sigstop_default (sigstop_default (sigstop_default t SIGTSTP) SIGTTOU) SIGTTIN.

(** The two tables hold what the options seen so far wrote last. *)
Definition parsed (seen : list getopt) (g : globals) : Prop :=
  tables_ok g ∧
  ∀ S, 0 ≤ S ≤ MAXSIG →
    signal_rewrite g !! Z.to_nat S = Some (default (-1) (last_write S seen)) ∧
    signal_action g !! Z.to_nat S = Some (default EmptyString (last_action S seen)).

(** ** Concrete runs *)

(** [dumb-init <opts> sleep 60], with neither environment variable set. *)
Definition example_cmdline (opts : list getopt) : cmdline :=
  mkCmdline "1.2.5" "dumb-init" opts ["sleep"; "60"] None None.

(** The globals of the supervisor once that command line is parsed and
    the child has been forked with PID 42. *)
Definition configured (opts : list getopt) : globals :=
  set_child_pid 42 (run (parse_command (example_cmdline opts))).1.2.

(** A handler run: what waitpid answers, what the fork of an action
    returns, and what /proc lists. *)
Definition example_env (waits : list (Z * Z)) (fork_ret : Z)
    (proc : option (list string)) : env :=
  mkEnv waits fork_ret true "No such file or directory" proc 1.

(** A launch in which every call succeeds and the child gets PID 42. *)
Definition example_launch : launch :=
  mkLaunch 0 42 0 0 true 0 EmptyString.

(** [dumb-init -b sleep 60] after the direct child has been reaped. *)
Definition survivor : globals := set_bereaved true (configured [Opt_b]).

(** A heartbeat with nothing to reap while /proc cannot be opened. *)
Definition blind_heartbeat : env := example_env [] 0 None.

(** The direct child (PID 42) is reaped with the given wait status; a
    fork, if one is made, returns [fork_ret]. *)
Definition child_reaped (status fork_ret : Z) : env :=
  example_env [(42, status)] fork_ret None.

(** A grandchild (PID 77) killed by signal 9 is reaped first, then the
    direct child, which exited with code 3. *)
Definition two_reaped : env := example_env [(77, 9); (42, 768)] 0 None.
(** *** Vocabulary for the further properties *)

(** The number of names that consist of digits only. *)
Definition numeric_entries (entries : list string) : Z :=
  Z.of_nat (length (List.filter (λ d_name, negb (nonnumber d_name)) entries)).


(** [r'] ends the process the way [r] does: with the same exit code,
    or in the same way other than by exit.  Nothing ends like a piece
    of code that returns. *)
Definition ends_like {A B} (r : result A) (r' : result B) : Prop :=
  match r with
  | Ret _ => False
  | Exit code => r' = Exit code
  | Abort => r' = Abort
  | Image => r' = Image
  | Undefined => r' = Undefined
  end.

(** Code whose events are all writes to stderr. *)
Definition is_stderr (ev : event) : Prop :=
  match ev with EStderr _ _ => True | _ => False end.

Definition only_prints {A} (m : M A) : Prop := ∀ g, Forall is_stderr (m g).2.

(** A kill addressed to the child (or its group), or SIGSTOP sent to
    the process [self]. *)
Definition child_or_self (g : globals) (self : Z) (k : Z * Z) : Prop :=
  k.1 = target g ∨ k = (self, SIGSTOP).

(** Code all of whose kills satisfy [P] of the globals it starts in. *)
Definition kills_within {A} (P : globals → Z * Z → Prop) (m : M A) : Prop :=
  ∀ g, Forall (P g) (kills (m g).2).

(** The option is -v, -c or -b. *)
Definition is_Opt_v (o : getopt) : bool := match o with Opt_v => true | _ => false end.
Definition is_Opt_c (o : getopt) : bool := match o with Opt_c => true | _ => false end.
Definition is_Opt_b (o : getopt) : bool := match o with Opt_b => true | _ => false end.

(** The environment variable is set to exactly [v]. *)
Definition env_is (var : option string) (v : string) : bool :=
  match var with
  | Some s => String.eqb s v
  | None => false
  end.


(** A waitpid answer for a terminated child whose reaping does not end
    the supervisor: any child when [survive_bereaving] is on, any but
    the direct child otherwise. *)
Definition reaped_quietly (g : globals) (w : Z * Z) : Prop :=
  w.1 > 0 ∧ reapable w.2 = true ∧
  (w.1 = child_pid g → survive_bereaving g = true).

(** The direct child is among the waitpid answers. *)
Definition child_among (g : globals) (ws : list (Z * Z)) : bool :=
  existsb (λ w, w.1 =? child_pid g) ws.

(** The usage message of [print_rewrite_signum_help]. *)
Definition rewrite_usage : event :=
  EStderr
    ("Usage: -r option takes <signum>:<signum>, where <signum> " +:+
     "is between 0 and %d.\n" +:+
     "This option can be specified multiple times.\n" +:+
     "Use --help for full usage.\n")
    [AInt MAXSIG].

(** Code that takes the globals to globals related by [R]. *)
Definition preserves {A} (R : globals → globals → Prop) (m : M A) : Prop :=
  ∀ g, R g (m g).1.2.

(** The [bereaved] flag, once set, is still set. *)
Definition bereaved_stays (g g' : globals) : Prop :=
  bereaved g = true → bereaved g' = true.

(** A kill of the pump: to the child (or its group), or SIGSTOP to the
    supervisor itself, whose PID is what getpid answered in some turn. *)
Definition pump_kill (g : globals) (turns : list turn) (k : Z * Z) : Prop :=
  k.1 = target g ∨
  (k.2 = SIGSTOP ∧ ∃ t, t ∈ turns ∧ k.1 = env_getpid (tu_env t)).

(** What [process_count] answers in the environment [e]. *)
Definition counted (e : env) : Z :=
  match env_proc e with
  | Some entries => Z.min 2 (numeric_entries entries)
  | None => -1
  end.

(** The events of a trace other than writes to stderr. *)
Definition syscalls (t : list event) : list event :=
  List.filter (λ ev, match ev with EStderr _ _ => false | _ => true end) t.

(** The value of slot [S] of the rewrite table that a run of options
    and the setsid defaults lead to. *)
Definition configured_slot (opts : list getopt) (setsid : bool) (S : Z) : Z :=
  match last_write S opts with
  | Some v => v
  | None => if setsid && is_tty_signal S then SIGSTOP else UNSET
  end.

(** What [main] does between parsing and its fork: it blocks all
    signals, installs the dummy handler for signals 1 to MAXSIG and, in
    setsid mode, tries to give up the controlling terminal. *)
Definition before_fork (g : globals) (la : launch) : list event :=
  EBlockAll :: (ESignal <$> seqZ 1 MAXSIG) ++
  (if use_setsid g then [EIoctl "TIOCNOTTY" (la_ioctl_notty la)] else []).

(** What the child does between the fork and its exec. *)
Definition before_exec (g : globals) (la : launch) : list event :=
  EUnblockAll ::
  (if use_setsid g
   then [ESetsid (la_setsid la); EIoctl "TIOCSCTTY" (la_ioctl_sctty la)]
   else []).

(** *** More concrete runs *)

(** A timeout of sigtimedwait, with one grandchild left beside the
    supervisor. *)
Definition heartbeat : turn :=
  mkTurn (-1) EAGAIN (example_env [] 0 (Some ["1"; "77"; "self"; "uptime"])).

(** SIGINT arriving. *)
Definition sigint_turn : turn := mkTurn 2 0 (example_env [] 0 None).

(** A grandchild and then the direct child are reaped while a second
    grandchild (PID 78) is still running. *)
Definition family_reaped : env :=
  example_env [(77, 9); (42, 0)] 0 (Some ["1"; "78"; "self"]).

(** [dumb-init -r 0:5 -a '3:echo' -c sleep 60]. *)
Definition mixed_cmdline : cmdline :=
  example_cmdline [Opt_r "0:5"; Opt_a "3:echo"; Opt_c].

(** [DUMB_INIT_SETSID=0 dumb-init -v -b sleep 60]. *)
Definition env_cmdline : cmdline :=
  mkCmdline "1.2.5" "dumb-init" [Opt_v; Opt_b] ["sleep"; "60"] None (Some "0").

(** [dumb-init -b] with no command, and [dumb-init -h]. *)
Definition bare_cmdline : cmdline :=
  mkCmdline "1.2.5" "dumb-init" [Opt_b] [] None None.

Definition help_cmdline : cmdline :=
  mkCmdline "1.2.5" "dumb-init" [Opt_h] ["sleep"; "60"] None None.

(** The globals [parse_command] ends with on a command line. *)
Definition parsed_globals (cl : cmdline) : globals := (run (parse_command cl)).1.2.

(** ** Basic facts about the monad *)

Lemma bind_Ret {A B} (m : M A) (k : A → M B) g a g1 t1 :
  m g = (Ret a, g1, t1) →
  bind m k g = (let '(r, g2, t2) := k a g1 in (r, g2, t1 ++ t2)).
Proof. intros H. unfold bind. rewrite H. by destruct (k a g1) as [[? ?] ?]. Qed.

Lemma DEBUG_eq fmt args g : DEBUG fmt args g = (Ret tt, g, dbg g fmt args).
Proof. unfold DEBUG, dbg, PRINTERR, bind, get, emit, ret. by destruct (debug g). Qed.

Lemma bind_DEBUG {B} fmt args (k : unit → M B) g :
  bind (DEBUG fmt args) k g =
    (let '(r, g2, t2) := k tt g in (r, g2, dbg g fmt args ++ t2)).
Proof. apply bind_Ret, DEBUG_eq. Qed.

Lemma bind_get {A B} (f : globals → A) (k : A → M B) g :
  bind (get f) k g = k (f g) g.
Proof. unfold bind, get. by destruct (k (f g) g) as [[? ?] ?]. Qed.

Lemma bind_ret {A B} (a : A) (k : A → M B) g : bind (ret a) k g = k a g.
Proof. unfold bind, ret. by destruct (k a g) as [[? ?] ?]. Qed.

Lemma bind_modify {B} (f : globals → globals) (k : unit → M B) g :
  bind (modify f) k g = k tt (f g).
Proof. unfold bind, modify. by destruct (k tt (f g)) as [[? ?] ?]. Qed.

Lemma bind_emit {B} ev (k : unit → M B) g :
  bind (emit ev) k g = (let '(r, g2, t2) := k tt g in (r, g2, ev :: t2)).
Proof. done. Qed.

Lemma bind_PRINTERR {B} fmt args (k : unit → M B) g :
  bind (PRINTERR fmt args) k g =
    (let '(r, g2, t2) := k tt g in
     (r, g2, EStderr ("[dumb-init] " +:+ fmt) args :: t2)).
Proof. done. Qed.

Lemma bind_exit {A B} c (k : A → M B) g : bind (exit c) k g = (Exit c, g, []).
Proof. done. Qed.

Lemma bind_assoc {A B C} (m : M A) (k1 : A → M B) (k2 : B → M C) g :
  bind (bind m k1) k2 g = bind m (λ a, bind (k1 a) k2) g.
Proof.
  unfold bind. destruct (m g) as [[[a| | | |] g1] t1]; try done.
  destruct (k1 a g1) as [[[b| | | |] g2] t2]; try done.
  destruct (k2 b g2) as [[r3 g3] t3]. by rewrite app_assoc.
Qed.

(** One step of symbolic execution. *)
Ltac mstep :=
  first [ rewrite bind_assoc | rewrite bind_DEBUG | rewrite bind_get | rewrite bind_ret
        | rewrite bind_modify | rewrite bind_emit | rewrite bind_PRINTERR
        | rewrite bind_exit | rewrite DEBUG_eq ];
  cbv beta.

Lemma kills_app t1 t2 : kills (t1 ++ t2) = kills t1 ++ kills t2.
Proof. apply omap_app. Qed.

Lemma kills_cons_kill p s t : kills (EKill p s :: t) = (p, s) :: kills t.
Proof. done. Qed.

Lemma forks_cons_fork r t : forks (EFork r :: t) = r :: forks t.
Proof. done. Qed.

Lemma forks_cons_kill p s t : forks (EKill p s :: t) = forks t.
Proof. done. Qed.

Lemma forks_app t1 t2 : forks (t1 ++ t2) = forks t1 ++ forks t2.
Proof. apply omap_app. Qed.

Lemma kills_dbg g fmt args : kills (dbg g fmt args) = [].
Proof. unfold dbg. by destruct (debug g). Qed.

Lemma forks_dbg g fmt args : forks (dbg g fmt args) = [].
Proof. unfold dbg. by destruct (debug g). Qed.

Lemma dbg_same_config g g' fmt args :
  same_config g g' → dbg g' fmt args = dbg g fmt args.
Proof. intros (_&_&_&Hd&_). unfold dbg. by rewrite Hd. Qed.

(** ** The handler writes no global but [bereaved] *)

Lemma same_config_refl g : same_config g g.
Proof. by repeat split. Qed.

Lemma same_config_trans g1 g2 g3 :
  same_config g1 g2 → same_config g2 g3 → same_config g1 g3.
Proof.
  unfold same_config. intros (?&?&?&?&?&?) (?&?&?&?&?&?).
  repeat split; congruence.
Qed.

Lemma same_config_target g g' : same_config g g' → target g' = target g.
Proof. intros (_&_&Hp&_&Hs&_). unfold target. by rewrite Hp, Hs. Qed.

Lemma frames_bind {A B} (m : M A) (k : A → M B) :
  frames m → (∀ a, frames (k a)) → frames (bind m k).
Proof.
  intros Hm Hk g. unfold bind. specialize (Hm g).
  destruct (m g) as [[r g1] t1]; simpl in *.
  destruct r; simpl; try done.
  specialize (Hk a g1). destruct (k a g1) as [[r2 g2] t2]; simpl in *.
  by eapply same_config_trans.
Qed.

Lemma frames_const {A} (r : result A) (t : list event) : frames (λ g, (r, g, t)).
Proof. intros g. apply same_config_refl. Qed.

Lemma frames_get {A} (f : globals → A) : frames (get f).
Proof. intros g. apply same_config_refl. Qed.

Lemma frames_set_bereaved b : frames (modify (set_bereaved b)).
Proof. intros g. by repeat split. Qed.

Lemma frames_read_rewrite i : frames (read_rewrite i).
Proof. intros g. unfold read_rewrite. repeat case_match; apply same_config_refl. Qed.

Lemma frames_read_action i : frames (read_action i).
Proof. intros g. unfold read_action. repeat case_match; apply same_config_refl. Qed.

Ltac frames_step :=
  lazymatch goal with
  | |- frames (bind _ _) => apply frames_bind; [| intros ?]
  | |- frames (if ?b then _ else _) => destruct b
  | |- frames (match ?x with _ => _ end) => destruct x
  | |- frames (modify (set_bereaved _)) => apply frames_set_bereaved
  | |- frames (read_rewrite _) => apply frames_read_rewrite
  | |- frames (read_action _) => apply frames_read_action
  | |- frames (get _) => apply frames_get
  | |- frames (ret _) => apply frames_const
  | |- frames (emit _) => apply frames_const
  | |- frames (exit _) => apply frames_const
  | |- frames abort => apply frames_const
  | |- frames image => apply frames_const
  | |- frames undefined => apply frames_const
  end.

Lemma frames_PRINTERR fmt args : frames (PRINTERR fmt args).
Proof. unfold PRINTERR. frames_step. Qed.

Lemma frames_DEBUG fmt args : frames (DEBUG fmt args).
Proof. unfold DEBUG, PRINTERR. repeat frames_step. Qed.

Lemma frames_translate_signal s : frames (translate_signal s).
Proof. unfold translate_signal. repeat (frames_step || apply frames_DEBUG). Qed.

Lemma frames_do_action e s : frames (do_action e s).
Proof. unfold do_action. repeat (frames_step || apply frames_PRINTERR). Qed.

Lemma frames_forward_signal e s : frames (forward_signal e s).
Proof.
  unfold forward_signal.
  repeat (frames_step || apply frames_DEBUG || apply frames_translate_signal
          || apply frames_do_action).
Qed.

Lemma frames_process_count_loop entries :
  ∀ count, frames (process_count_loop entries count).
Proof.
  induction entries as [|d entries IH]; intros count; simpl;
    repeat (frames_step || apply frames_DEBUG || apply IH).
Qed.

Lemma frames_process_count e : frames (process_count e).
Proof.
  unfold process_count.
  repeat (frames_step || apply frames_PRINTERR || apply frames_process_count_loop).
Qed.

Lemma frames_reap_loop e ws : frames (reap_loop e ws).
Proof.
  induction ws as [|[killed_pid status] ws IH]; simpl;
    repeat (frames_step || apply frames_DEBUG || apply IH
            || apply frames_forward_signal || unfold assert).
Qed.

Lemma frames_handle_signal e s : frames (handle_signal e s).
Proof.
  unfold handle_signal;
    repeat (frames_step || apply frames_DEBUG || apply frames_reap_loop
            || apply frames_forward_signal || apply frames_process_count).
Qed.

(** ** Equations for forwarding *)

Lemma in_bounds_true i : 0 ≤ i ≤ MAXSIG → in_bounds i = true.
Proof. unfold in_bounds, MAXSIG. lia. Qed.

Lemma read_rewrite_eq i g v :
  0 ≤ i ≤ MAXSIG → signal_rewrite g !! Z.to_nat i = Some v →
  read_rewrite i g = (Ret v, g, []).
Proof. intros Hi Hv. unfold read_rewrite. by rewrite in_bounds_true, Hv. Qed.

Lemma read_action_eq i g a :
  0 ≤ i ≤ MAXSIG → signal_action g !! Z.to_nat i = Some a →
  read_action i g = (Ret a, g, []).
Proof. intros Hi Hv. unfold read_action. by rewrite in_bounds_true, Hv. Qed.

Lemma translate_signal_eq S g v :
  1 ≤ S ≤ MAXSIG → signal_rewrite g !! Z.to_nat S = Some v →
  translate_signal S g =
    (Ret (if v =? -1 then S else v), g,
     if v =? -1 then [] else dbg g "Translating signal %d to %d.\n" [AInt S; AInt v]).
Proof.
  intros HS Hv. unfold translate_signal.
  replace (S <=? 0) with false by (unfold MAXSIG in *; lia).
  replace (S >? MAXSIG) with false by (unfold MAXSIG in *; lia).
  simpl. rewrite (bind_Ret _ _ _ _ _ _ (read_rewrite_eq S g v ltac:(lia) Hv)).
  destruct (v =? -1); [done|].
  rewrite (bind_Ret _ _ _ _ _ _ (DEBUG_eq _ _ g)). simpl. by rewrite app_nil_r.
Qed.

(** Forwarding a signal whose slot does not hold -2 is one kill. *)
Lemma forward_signal_kill e S g v :
  1 ≤ S ≤ MAXSIG → signal_rewrite g !! Z.to_nat S = Some v → v ≠ -2 →
  let n := if v =? -1 then S else v in
  forward_signal e S g =
    (Ret tt, g,
     (if v =? -1 then [] else dbg g "Translating signal %d to %d.\n" [AInt S; AInt v])
     ++ EKill (target g) n :: dbg g "Forwarded signal %d to children.\n" [AInt n]).
Proof.
  intros HS Hv Hne n. unfold forward_signal.
  rewrite (bind_Ret _ _ _ _ _ _ (translate_signal_eq S g v HS Hv)). fold n.
  assert ((n =? -2) = false) as -> by (subst n; destruct (Z.eqb_spec v (-1)); lia).
  assert ((n =? -1) = false) as -> by (subst n; destruct (Z.eqb_spec v (-1)); lia).
  cbn [negb]. unfold bind, get, emit. by rewrite DEBUG_eq.
Qed.

(** Forwarding a signal whose slot holds -2 runs [do_action] and nothing else. *)
Lemma forward_signal_action e S g :
  1 ≤ S ≤ MAXSIG → signal_rewrite g !! Z.to_nat S = Some (-2) →
  forward_signal e S g =
    (let '(r, g', t) := do_action e S g in
     (r, g', dbg g "Translating signal %d to %d.\n" [AInt S; AInt (-2)] ++ t)).
Proof.
  intros HS Hv. unfold forward_signal.
  by rewrite (bind_Ret _ _ _ _ _ _ (translate_signal_eq S g (-2) HS Hv)).
Qed.


Lemma do_action_eq e S g a :
  0 ≤ S ≤ MAXSIG → signal_action g !! Z.to_nat S = Some a →
  do_action e S g =
    if env_fork e <? 0 then
      (Exit 1, g, dbg_action g S a ++
         [EFork (env_fork e); EStderr "[dumb-init] Unable to fork. Exiting.\n" []])
    else if env_fork e =? 0 then
      if env_exec_ok e then
        (Image, g, dbg_action g S a ++
           [EFork 0; EUnblockAll; EExec "/bin/bash" ["/bin/bash"; "-c"; a]])
      else
        (Exit 1, g, dbg_action g S a ++
           [EFork 0; EUnblockAll; EExec "/bin/bash" ["/bin/bash"; "-c"; a];
            EStderr "[dumb-init] Could not exec %s: %s\n" [AStr a; AStr (env_strerror e)]])
    else (Ret tt, g, dbg_action g S a ++ [EFork (env_fork e)]).
Proof.
  intros HS Ha. unfold do_action, dbg_action, dbg, PRINTERR.
  unfold bind, get, emit, exit, image, ret, read_action.
  rewrite (in_bounds_true S HS).
  destruct (debug g), (env_fork e <? 0), (Z.eqb_spec (env_fork e) 0) as [->|],
    (env_exec_ok e); cbv beta iota; rewrite ?Ha; done.
Qed.


(** ** Code that changes no global and calls no kill *)

Lemma quiet_bind {A B} (m : M A) (k : A → M B) :
  quiet m → (∀ a, quiet (k a)) → quiet (bind m k).
Proof.
  intros Hm Hk g. unfold bind. destruct (Hm g) as [Hg Ht].
  destruct (m g) as [[r g1] t1]; simpl in *. subst g1.
  destruct r; simpl; try done.
  destruct (Hk a g) as [Hg2 Ht2]. destruct (k a g) as [[r2 g2] t2]; simpl in *.
  by rewrite kills_app, Ht, Ht2.
Qed.

Lemma quiet_const {A} (r : result A) (t : list event) :
  kills t = [] → quiet (λ g, (r, g, t)).
Proof. by intros Ht g. Qed.

Lemma quiet_get {A} (f : globals → A) : quiet (get f).
Proof. by intros g. Qed.

Lemma quiet_read_rewrite i : quiet (read_rewrite i).
Proof. intros g. unfold read_rewrite. by repeat case_match. Qed.

Lemma quiet_read_action i : quiet (read_action i).
Proof. intros g. unfold read_action. by repeat case_match. Qed.

Ltac quiet_step :=
  lazymatch goal with
  | |- quiet (bind _ _) => apply quiet_bind; [| intros ?]
  | |- quiet (if ?b then _ else _) => destruct b
  | |- quiet (match ?x with _ => _ end) => destruct x
  | |- quiet (read_rewrite _) => apply quiet_read_rewrite
  | |- quiet (read_action _) => apply quiet_read_action
  | |- quiet (get _) => apply quiet_get
  | |- quiet (ret _) => by apply quiet_const
  | |- quiet (emit _) => by apply quiet_const
  | |- quiet (exit _) => by apply quiet_const
  | |- quiet abort => by apply quiet_const
  | |- quiet image => by apply quiet_const
  | |- quiet undefined => by apply quiet_const
  end.

Lemma quiet_PRINTERR fmt args : quiet (PRINTERR fmt args).
Proof. unfold PRINTERR. quiet_step. Qed.

Lemma quiet_DEBUG fmt args : quiet (DEBUG fmt args).
Proof. unfold DEBUG, PRINTERR. repeat quiet_step. Qed.

Lemma quiet_translate_signal s : quiet (translate_signal s).
Proof. unfold translate_signal. repeat (quiet_step || apply quiet_DEBUG). Qed.

Lemma quiet_do_action e s : quiet (do_action e s).
Proof. unfold do_action. repeat (quiet_step || apply quiet_PRINTERR). Qed.

(** [forward_signal] issues at most one kill, and that one goes to the
    child, or to its process group in setsid mode. *)
Lemma forward_signal_kills e S g :
  kills (forward_signal e S g).2 = [] ∨
  ∃ n, kills (forward_signal e S g).2 = [(target g, n)].
Proof.
  destruct (forward_signal e S g) as [[r' g'] t'] eqn:Hf. cbn [snd].
  revert Hf. unfold forward_signal, bind at 1.
  destruct (quiet_translate_signal S g) as [Hg Ht].
  destruct (translate_signal S g) as [[r g1] t1]; simpl in *. subst g1.
  destruct r as [n| | | |]; try (intros [= <- <- <-]; auto).
  destruct (n =? -2).
  - destruct (quiet_do_action e S g) as [_ Hd].
    destruct (do_action e S g) as [[r2 g2] t2]; simpl in *.
    intros [= <- <- <-]. left. by rewrite kills_app, Ht, Hd.
  - destruct (n =? -1); cbn [negb].
    + rewrite DEBUG_eq. intros [= <- <- <-]. left.
      by rewrite kills_app, Ht, kills_dbg.
    + unfold bind, get, emit. rewrite DEBUG_eq. intros [= <- <- <-].
      right. exists n. by rewrite !kills_app, Ht, kills_cons_kill, kills_dbg.
Qed.

Lemma forward_signal_kill_target e S g p s :
  (p, s) ∈ kills (forward_signal e S g).2 → p = target g.
Proof.
  destruct (forward_signal_kills e S g) as [->|[n ->]].
  - by intros ?%elem_of_nil.
  - intros ?%list_elem_of_singleton. congruence.
Qed.


(** The handler on any signal but SIGCHLD: the forwarding step, then
    the self-suspension for the terminal stop signals. *)
Lemma handle_signal_forward e S g :
  S ≠ SIGCHLD →
  handle_signal e S g =
    (let '(r, g1, t1) := forward_signal e S g in
     let received := dbg g "Received signal %d.\n" [AInt S] in
     match r with
     | Ret _ =>
         (Ret tt, g1, received ++ t1 ++
            if is_tty_signal S
            then dbg g1 "Suspending self due to TTY signal.\n" [] ++
                 [EKill (env_getpid e) SIGSTOP]
            else [])
     | _ => (r, g1, received ++ t1)
     end).
Proof.
  intros HS. unfold handle_signal.
  rewrite (bind_Ret _ _ _ _ _ _ (DEBUG_eq _ _ g)).
  destruct (Z.eqb_spec S SIGCHLD) as [|_]; [done|].
  unfold bind at 1. destruct (forward_signal e S g) as [[r g1] t1].
  destruct r as [[]| | | |]; try done.
  fold (is_tty_signal S). destruct (is_tty_signal S).
  - rewrite (bind_Ret _ _ _ _ _ _ (DEBUG_eq _ _ g1)). by unfold emit.
  - done.
Qed.

Lemma tables_ok_action g S :
  tables_ok g → 0 ≤ S ≤ MAXSIG → ∃ a, signal_action g !! Z.to_nat S = Some a.
Proof.
  intros [_ Hl] HS. apply lookup_lt_is_Some. rewrite Hl. unfold MAXSIG in HS. lia.
Qed.

Lemma tables_ok_rewrite g S :
  tables_ok g → 0 ≤ S ≤ MAXSIG → ∃ v, signal_rewrite g !! Z.to_nat S = Some v.
Proof.
  intros [Hl _] HS. apply lookup_lt_is_Some. rewrite Hl. unfold MAXSIG in HS. lia.
Qed.

(** C9. Handling a signal configured as an action leaves the recorded
    direct child PID as it was: the fork result of the action stays in a
    local of [do_action].  One fork is made for the action, and whatever
    is forwarded afterwards is still addressed to the original child (or
    to its process group in setsid mode). *)
Theorem action_keeps_child_pid e S g :
  1 ≤ S ≤ MAXSIG → tables_ok g →
  signal_rewrite g !! Z.to_nat S = Some ACTION →
  let '(r, g', t) := handle_signal e S g in
  child_pid g' = child_pid g ∧
  (S ≠ SIGCHLD → forks t = [env_fork e]) ∧
  ∀ e2 S2 p s, (p, s) ∈ kills (forward_signal e2 S2 g').2 → p = target g.
Proof.
  intros HS Hok Hv.
  pose proof (frames_handle_signal e S g) as Hfr.
  destruct (handle_signal e S g) as [[r g'] t] eqn:Hh. cbn [fst snd] in Hfr.
  split; [apply Hfr|]. split.
  - intros Hne. rewrite (handle_signal_forward e S g Hne) in Hh.
    rewrite (forward_signal_action e S g HS Hv) in Hh.
    destruct (tables_ok_action g S Hok ltac:(lia)) as [a Ha].
    rewrite (do_action_eq e S g a ltac:(lia) Ha) in Hh.
    unfold dbg_action in Hh.
    destruct (env_fork e <? 0); [|destruct (env_fork e =? 0) eqn:E0;
      [apply Z.eqb_eq in E0; rewrite E0; destruct (env_exec_ok e)|]];
      injection Hh as <- <- <-;
      repeat (rewrite ?forks_app, ?forks_dbg, ?forks_cons_fork; cbn [app]);
      try done.
    by destruct (is_tty_signal S); rewrite ?forks_app, ?forks_dbg.
  - intros e2 S2 p s Hin. apply forward_signal_kill_target in Hin.
    by rewrite Hin, (same_config_target g g').
Qed.

(** C10. When the fork for an action fails, the supervisor reports it
    on stderr and exits with code 1: no signal is sent and the turns of
    the pump that would have followed are not run. *)
Theorem action_fork_failure_exits e S g errno turns :
  1 ≤ S ≤ MAXSIG → S ≠ SIGCHLD → tables_ok g →
  signal_rewrite g !! Z.to_nat S = Some ACTION → env_fork e < 0 →
  let '(r, g', t) := pump (mkTurn S errno e :: turns) g in
  r = Exit 1 ∧ g' = g ∧ kills t = [] ∧ forks t = [env_fork e] ∧
  last t = Some (EStderr "[dumb-init] Unable to fork. Exiting.\n" []).
Proof.
  intros HS Hne Hok Hv Hf. cbn [pump tu_signum tu_errno tu_env].
  replace (S =? -1) with false by lia.
  unfold bind at 1, ret at 1. unfold bind at 1.
  rewrite (handle_signal_forward e S g Hne), (forward_signal_action e S g HS Hv).
  destruct (tables_ok_action g S Hok ltac:(lia)) as [a Ha].
  rewrite (do_action_eq e S g a ltac:(lia) Ha).
  replace (env_fork e <? 0) with true by lia. cbn [app].
  unfold dbg_action.
  repeat split.
  - by rewrite !kills_app, !kills_dbg.
  - by rewrite !forks_app, !forks_dbg.
  - by rewrite !last_app.
Qed.

(** C4. What the code does with a signal whose slot holds 0: it takes
    the forwarding branch and calls kill with signal number 0 on the
    child (or its group), and in debug mode logs that it forwarded. *)
Theorem ignored_signal_calls_kill e S g :
  1 ≤ S ≤ MAXSIG → S ≠ SIGCHLD →
  signal_rewrite g !! Z.to_nat S = Some IGNORE →
  let '(r, g', t) := handle_signal e S g in
  r = Ret tt ∧ g' = g ∧
  kills t = (target g, 0) ::
            (if is_tty_signal S then [(env_getpid e, SIGSTOP)] else []) ∧
  (debug g = true →
   EStderr "[dumb-init] Forwarded signal %d to children.\n" [AInt 0] ∈ t).
Proof.
  intros HS Hne Hv.
  rewrite (handle_signal_forward e S g Hne).
  rewrite (forward_signal_kill e S g IGNORE HS Hv ltac:(done)).
  cbn [IGNORE Z.eqb]. repeat split.
  - destruct (is_tty_signal S);
      by repeat (rewrite ?kills_app, ?kills_dbg, ?kills_cons_kill).
  - intros Hd. unfold dbg. rewrite Hd.
    rewrite !elem_of_app, !elem_of_cons. auto 10.
Qed.

Lemma process_count_None e g :
  env_proc e = None →
  process_count e g =
    (Ret (-1), g, [EStderr "[dumb-init] Could not open /proc.\n" []]).
Proof. intros Hp. unfold process_count. by rewrite Hp. Qed.

(** C1. What the code does when /proc cannot be opened: [process_count]
    returns -1, and the handler, bereaved in survive-bereaving mode,
    compares that with 1 and exits with code 0. *)
Theorem enumeration_failure_exits e g :
  survive_bereaving g = true → bereaved g = true →
  env_waitpid e = [] → env_proc e = None →
  (process_count e g).1.1 = Ret (-1) ∧
  handle_signal e SIGCHLD g =
    (Exit 0, g,
     dbg g "Received signal %d.\n" [AInt SIGCHLD] ++
     EStderr "[dumb-init] Could not open /proc.\n" [] ::
     dbg g "Process count: %d\n" [AInt (-1)] ++
     dbg g "No process left, exitting.\n" []).
Proof.
  intros Hs Hb Hw Hp. rewrite (process_count_None e g Hp). split; [done|].
  unfold handle_signal. rewrite Hw, Z.eqb_refl. cbn [reap_loop].
  mstep. rewrite bind_ret. repeat mstep. rewrite Hs, Hb. cbn [andb].
  rewrite (bind_Ret _ _ _ _ _ _ (process_count_None e g Hp)).
  repeat mstep. cbn [Z.leb Z.compare]. repeat mstep.
  unfold exit. by rewrite !app_nil_r.
Qed.

(** ** Reaping *)



Lemma kills_dbg_reaped g w : kills (dbg_reaped g w) = [].
Proof. unfold dbg_reaped. destruct (WIFEXITED w.2); apply kills_dbg. Qed.

Lemma forks_dbg_reaped g w : forks (dbg_reaped g w) = [].
Proof. unfold dbg_reaped. destruct (WIFEXITED w.2); apply forks_dbg. Qed.

Lemma reap_loop_other e g w ws :
  other_child g w →
  reap_loop e (w :: ws) g =
    (let '(r, g', t) := reap_loop e ws g in (r, g', dbg_reaped g w ++ t)).
Proof.
  destruct w as [pid status]. intros (Hpos & Hne & Hst). cbn [fst snd] in *.
  cbn [reap_loop]. replace (pid >? 0) with true by lia.
  unfold dbg_reaped, reapable in *. cbn [fst snd].
  destruct (WIFEXITED status); cbn [orb] in Hst; [|rewrite Hst; unfold assert];
    repeat mstep; (replace (pid =? child_pid g) with false by lia);
    repeat mstep; destruct (reap_loop e ws g) as [[? ?] ?]; done.
Qed.

Lemma reap_loop_others e g pre ws :
  Forall (other_child g) pre →
  ∃ tpre, kills tpre = [] ∧ forks tpre = [] ∧
    reap_loop e (pre ++ ws) g =
      (let '(r, g', t) := reap_loop e ws g in (r, g', tpre ++ t)).
Proof.
  induction 1 as [|w pre Hw _ IH]; [|destruct IH as (tpre & Hk & Hf & IH)].
  - exists []. cbn [app]. by destruct (reap_loop e ws g) as [[? ?] ?].
  - exists (dbg_reaped g w ++ tpre). split_and!.
    + by rewrite kills_app, kills_dbg_reaped, Hk.
    + by rewrite forks_app, forks_dbg_reaped, Hf.
    + cbn [app]. rewrite (reap_loop_other e g w _ Hw), IH.
      destruct (reap_loop e ws g) as [[? ?] ?]. by rewrite app_assoc.
Qed.

(** Reaping the direct child when [survive_bereaving] is off: the flag
    is set, SIGTERM goes through [forward_signal], and the handler exits
    with the computed status unless the forwarding itself ended the
    process. *)
Lemma reap_loop_direct e g status ws :
  child_pid g > 0 → reapable status = true → survive_bereaving g = false →
  reap_loop e ((child_pid g, status) :: ws) g =
    (let '(r, g', t) := forward_signal e SIGTERM (set_bereaved true g) in
     match r with
     | Ret _ =>
         (Exit (exit_status_of status), g',
          dbg_reaped g (child_pid g, status) ++ t ++
          dbg g' "Child exited with status %d. Goodbye.\n"
              [AInt (exit_status_of status)])
     | _ => (r, g', dbg_reaped g (child_pid g, status) ++ t)
     end).
Proof.
  intros Hpos Hst Hsb. cbn [reap_loop]. replace (child_pid g >? 0) with true by lia.
  unfold dbg_reaped, exit_status_of, reapable in *. cbn [fst snd].
  destruct (WIFEXITED status); cbn [orb] in Hst; [|rewrite Hst; unfold assert];
    repeat mstep; rewrite Z.eqb_refl; repeat mstep;
    cbn [survive_bereaving set_bereaved]; rewrite Hsb; cbn [negb];
    repeat mstep; unfold bind at 1;
    destruct (forward_signal e SIGTERM (set_bereaved true g)) as [[[[]| | | |] g'] t];
    try done; repeat mstep; unfold exit; by rewrite ?app_nil_r.
Qed.

(** ** The wait status macros *)

Lemma WEXITSTATUS_low_8_bits status :
  WEXITSTATUS status = Z.shiftr status 8 `mod` 256 ∧ 0 ≤ WEXITSTATUS status ≤ 255.
Proof.
  assert (WEXITSTATUS status = Z.shiftr status 8 `mod` 256) as ->.
  { unfold WEXITSTATUS. rewrite Z.shiftr_land.
    change (Z.shiftr 65280 8) with (Z.ones 8). by rewrite Z.land_ones. }
  split; [done|]. pose proof (Z.mod_pos_bound (Z.shiftr status 8) 256) as H.
  set (x := _ `mod` _) in *. lia.
Qed.

Lemma WTERMSIG_range status : 0 ≤ WTERMSIG status ≤ 127.
Proof.
  assert (WTERMSIG status = status `mod` 128) as ->.
  { unfold WTERMSIG. change 127 with (Z.ones 7). by rewrite Z.land_ones. }
  pose proof (Z.mod_pos_bound status 128) as H.
  set (x := _ `mod` _) in *. lia.
Qed.

Lemma WIFSIGNALED_not_exited status :
  WIFSIGNALED status = true → WIFEXITED status = false ∧ 1 ≤ WTERMSIG status ≤ 126.
Proof.
  unfold WIFSIGNALED, WIFEXITED. pose proof (WTERMSIG_range status) as Hr.
  unfold WTERMSIG in *. set (k := Z.land status 127) in *. intros H.
  destruct (Z.gtb_spec (k + 1) 127) as [Hk|Hk].
  - assert (k = 127) as -> by lia. done.
  - destruct (Z.eqb_spec k 0) as [->|]; [done|].
    split; [done|]. lia.
Qed.

(** ** The handler on SIGCHLD *)

Lemma handle_signal_reap_stops e g r g' t :
  reap_loop e (env_waitpid e) g = (r, g', t) → (∀ u, r ≠ Ret u) →
  handle_signal e SIGCHLD g = (r, g', dbg g "Received signal %d.\n" [AInt SIGCHLD] ++ t).
Proof.
  intros Hr Hne. unfold handle_signal. mstep. rewrite Z.eqb_refl.
  unfold bind at 1. rewrite Hr. destruct r; try done. by destruct (Hne a).
Qed.

(** The handler run in which the direct child is reaped, with
    [survive_bereaving] off. *)
Lemma handle_signal_bereaved e g pre status post :
  env_waitpid e = pre ++ (child_pid g, status) :: post →
  Forall (other_child g) pre →
  child_pid g > 0 → reapable status = true → survive_bereaving g = false →
  ∃ t0, kills t0 = [] ∧ forks t0 = [] ∧
    handle_signal e SIGCHLD g =
      (let '(r, g', t) := forward_signal e SIGTERM (set_bereaved true g) in
       match r with
       | Ret _ =>
           (Exit (exit_status_of status), g',
            t0 ++ t ++ dbg g' "Child exited with status %d. Goodbye.\n"
                           [AInt (exit_status_of status)])
       | _ => (r, g', t0 ++ t)
       end).
Proof.
  intros Hw Hpre Hpos Hst Hsb.
  destruct (reap_loop_others e g pre ((child_pid g, status) :: post) Hpre)
    as (tpre & Hk & Hf & Heq).
  rewrite (reap_loop_direct e g status post Hpos Hst Hsb), <- Hw in Heq.
  exists (dbg g "Received signal %d.\n" [AInt SIGCHLD] ++ tpre ++
          dbg_reaped g (child_pid g, status)).
  split_and!.
  - by rewrite !kills_app, Hk, kills_dbg, kills_dbg_reaped.
  - by rewrite !forks_app, Hf, forks_dbg, forks_dbg_reaped.
  - destruct (forward_signal e SIGTERM (set_bereaved true g)) as [[r g'] t].
    destruct r as [[]| | | |];
      rewrite (handle_signal_reap_stops _ _ _ _ _ Heq) by done;
      by rewrite <- ?app_assoc.
Qed.


(** How the handler run that reaps the direct child ends, by the slot
    of SIGTERM and the result of the action's fork. *)
Lemma handle_signal_bereaved_result e g pre status post v :
  env_waitpid e = pre ++ (child_pid g, status) :: post →
  Forall (other_child g) pre →
  child_pid g > 0 → reapable status = true → survive_bereaving g = false →
  tables_ok g → signal_rewrite g !! Z.to_nat SIGTERM = Some v →
  (handle_signal e SIGCHLD g).1.1 =
    if v =? ACTION then
      if env_fork e <? 0 then Exit 1
      else if env_fork e =? 0 then (if env_exec_ok e then Image else Exit 1)
      else Exit (exit_status_of status)
    else Exit (exit_status_of status).
Proof.
  intros Hw Hpre Hpos Hst Hsb Hok Hv.
  destruct (handle_signal_bereaved e g pre status post Hw Hpre Hpos Hst Hsb)
    as (t0 & _ & _ & ->).
  set (g1 := set_bereaved true g).
  assert (1 ≤ SIGTERM ≤ MAXSIG) as HS by done.
  destruct (Z.eqb_spec v ACTION) as [->|Hne].
  - rewrite (forward_signal_action e SIGTERM g1 HS Hv).
    destruct (tables_ok_action g SIGTERM Hok ltac:(done)) as [a Ha].
    rewrite (do_action_eq e SIGTERM g1 a ltac:(done) Ha).
    by destruct (env_fork e <? 0), (env_fork e =? 0), (env_exec_ok e).
  - by rewrite (forward_signal_kill e SIGTERM g1 v HS Hv Hne).
Qed.

(** C3, as the code has it.  When the direct child is reaped and
    [survive_bereaving] is off, the supervisor exits with the child's
    exit status (the low 8 bits of what the child passed to exit) if the
    child exited, and with 128 + K if signal K killed it -- except when
    SIGTERM is configured as an action and the fork for that action
    fails, where [do_action] exits with code 1 first. *)
Theorem bereavement_exit_code e g pre status post v :
  env_waitpid e = pre ++ (child_pid g, status) :: post →
  Forall (other_child g) pre →
  child_pid g > 0 → survive_bereaving g = false →
  tables_ok g → signal_rewrite g !! Z.to_nat SIGTERM = Some v →
  let r := (handle_signal e SIGCHLD g).1.1 in
  (v ≠ ACTION ∨ env_fork e > 0 →
   (WIFEXITED status = true →
    r = Exit (WEXITSTATUS status) ∧
    WEXITSTATUS status = Z.shiftr status 8 `mod` 256) ∧
   (WIFSIGNALED status = true → r = Exit (128 + WTERMSIG status))) ∧
  (v = ACTION → env_fork e < 0 → reapable status = true → r = Exit 1).
Proof.
  intros Hw Hpre Hpos Hsb Hok Hv r.
  pose proof (handle_signal_bereaved_result e g pre status post v
                Hw Hpre Hpos) as Hr.
  fold r in Hr. split.
  - intros Hcase.
    assert (reapable status = true → r = Exit (exit_status_of status)) as Hcode.
    { intros Hst. rewrite (Hr Hst Hsb Hok Hv).
      destruct (Z.eqb_spec v ACTION) as [->|_]; [|done].
      destruct Hcase as [|Hfork]; [done|].
      replace (env_fork e <? 0) with false by lia.
      by replace (env_fork e =? 0) with false by lia. }
    split.
    + intros Hex. split; [|apply WEXITSTATUS_low_8_bits].
      rewrite Hcode by (unfold reapable; by rewrite Hex).
      unfold exit_status_of. by rewrite Hex.
    + intros Hsig. destruct (WIFSIGNALED_not_exited status Hsig) as [Hex _].
      rewrite Hcode by (unfold reapable; by rewrite Hsig, orb_true_r).
      unfold exit_status_of. by rewrite Hex.
  - intros -> Hfork Hst. rewrite (Hr Hst Hsb Hok Hv). cbn [ACTION Z.eqb].
    by replace (env_fork e <? 0) with true by lia.
Qed.

(** ** The option handlers *)

Lemma rewrite_all_spec R n : ∀ k g,
  length (signal_rewrite g) = 65%nat → (k + n ≤ 65)%nat →
  ∃ t', rewrite_all n (Z.of_nat k) R g = (Ret tt, set_signal_rewrite t' g, []) ∧
        length t' = 65%nat ∧
        ∀ j, t' !! j = if decide (k ≤ j < k + n)%nat then Some R
                       else signal_rewrite g !! j.
Proof.
  induction n as [|n IH]; intros k g Hlen Hk.
  - exists (signal_rewrite g). split_and!; [by destruct g|done|].
    intros j. case_decide; [lia|done].
  - cbn [rewrite_all]. unfold write_rewrite at 1, bind at 1.
    rewrite in_bounds_true by (unfold MAXSIG; lia). rewrite Nat2Z.id.
    destruct (lookup_lt_is_Some_2 (signal_rewrite g) k ltac:(lia)) as [x ->].
    set (g1 := set_signal_rewrite _ g).
    destruct (IH (S k) g1) as (t' & Heq & Hlen' & Hlook);
      [by cbn; rewrite length_insert | lia |].
    replace (Z.of_nat k + 1) with (Z.of_nat (S k)) by lia. rewrite Heq.
    exists t'. split_and!; [done..|].
    intros j. rewrite Hlook. cbn [g1 signal_rewrite set_signal_rewrite].
    destruct (decide (j = k)) as [->|Hne].
    + rewrite list_lookup_insert_eq by lia. repeat case_decide; try lia. done.
    + rewrite list_lookup_insert_ne by done. repeat case_decide; try lia; done.
Qed.

Lemma rewrite_all_eq R g :
  length (signal_rewrite g) = 65%nat →
  rewrite_all 65 0 R g = (Ret tt, set_signal_rewrite (replicate 65 R) g, []).
Proof.
  intros Hlen.
  destruct (rewrite_all_spec R 65 0 g Hlen ltac:(lia)) as (t' & Heq & Hlen' & Hlook).
  change (Z.of_nat 0) with 0 in Heq. rewrite Heq. do 3 f_equal.
  apply list_eq. intros j. rewrite Hlook. case_decide.
  - symmetry. apply lookup_replicate_2. lia.
  - rewrite !lookup_ge_None_2; [done|rewrite length_replicate; lia|lia].
Qed.

(** An accepted -r option. *)
Lemma parse_rewrite_signum_eq optarg g S R :
  sscanf_d_colon_d optarg = Some (2, [S; R]) →
  0 ≤ S ≤ MAXSIG → 0 ≤ R ≤ MAXSIG → length (signal_rewrite g) = 65%nat →
  parse_rewrite_signum optarg g =
    (Ret tt,
     set_signal_rewrite
       (if S =? 0 then replicate 65 R else <[Z.to_nat S := R]> (signal_rewrite g)) g,
     []).
Proof.
  intros Hscan HS HR Hlen. unfold parse_rewrite_signum. rewrite Hscan.
  replace ((0 <=? S) && (S <=? MAXSIG)) with true by lia.
  replace ((0 <=? R) && (R <=? MAXSIG)) with true by lia. cbn [andb].
  destruct (S =? 0); [by apply rewrite_all_eq|].
  unfold write_rewrite. rewrite in_bounds_true by done.
  by destruct (lookup_lt_is_Some_2 (signal_rewrite g) (Z.to_nat S)
                 ltac:(unfold MAXSIG in *; lia)) as [x ->].
Qed.

(** A run of accepted single rewrites. *)
Lemma parse_options_singles cl optargs singles : ∀ g,
  Forall2 single_rewrite optargs singles →
  length (signal_rewrite g) = 65%nat →
  parse_options cl (map Opt_r optargs) g =
    (Ret tt,
     set_signal_rewrite
       (foldl (λ t sr, <[Z.to_nat sr.1 := sr.2]> t) (signal_rewrite g) singles) g,
     []).
Proof.
  intros g H. revert g.
  induction H as [|optarg [S R] optargs singles (Hscan & HS & HR) _ IH];
    intros g Hlen.
  - by destruct g.
  - cbn [map parse_options fst snd foldl] in *.
    rewrite (bind_Ret _ _ _ _ _ _
               (parse_rewrite_signum_eq optarg g S R Hscan ltac:(lia) HR Hlen)).
    replace (S =? 0) with false by lia.
    rewrite IH by (cbn; by rewrite length_insert). done.
Qed.

Lemma foldl_overwrite_length (singles : list (Z * Z)) : ∀ t : list Z,
  length (foldl (λ t sr, <[Z.to_nat sr.1 := sr.2]> t) t singles) = length t.
Proof.
  induction singles as [|sr singles IH]; intros t; [done|].
  cbn [foldl]. by rewrite IH, length_insert.
Qed.

Lemma rewritten_table_lookup R singles S :
  0 ≤ S ≤ MAXSIG →
  Forall (λ sr : Z * Z, 0 ≤ sr.1) singles →
  rewritten_table R singles !! Z.to_nat S = Some (last_rewrite R singles S).
Proof.
  intros HS. unfold rewritten_table, last_rewrite.
  induction singles as [|[S' R'] singles IH] using rev_ind; intros Hall.
  - cbn [foldl omap last default]. apply lookup_replicate_2.
    unfold MAXSIG in HS. lia.
  - apply Forall_app in Hall as [Hall Hsr]. rewrite Forall_singleton in Hsr.
    rewrite foldl_app, omap_app. cbn [foldl omap list_omap fst snd] in *.
    destruct (Z.eqb_spec S' S) as [->|Hne].
    + rewrite last_snoc. cbn [default]. apply list_lookup_insert_eq.
      rewrite foldl_overwrite_length, length_replicate. unfold MAXSIG in HS. lia.
    + rewrite app_nil_r, list_lookup_insert_ne by lia. by apply IH.
Qed.

(** C6. The bulk rewrite [-r 0:R] followed by single rewrites
    [-r S:R'] with S from 1 to MAXSIG is accepted and leaves the rewrite
    table equal to one that holds R in every slot and is then
    overwritten at each S with its R', in order; so every slot holds the
    R' of the last single rewrite for it, or R if there was none. *)
Theorem bulk_then_single_rewrites cl g optarg0 R optargs singles :
  tables_ok g →
  sscanf_d_colon_d optarg0 = Some (2, [0; R]) → 0 ≤ R ≤ MAXSIG →
  Forall2 single_rewrite optargs singles →
  ∃ g', parse_options cl (Opt_r optarg0 :: map Opt_r optargs) g = (Ret tt, g', []) ∧
    signal_rewrite g' = rewritten_table R singles ∧
    ∀ S, 0 ≤ S ≤ MAXSIG →
      signal_rewrite g' !! Z.to_nat S = Some (last_rewrite R singles S).
Proof.
  intros [Hlen _] Hscan HR Hsingles. cbn [parse_options].
  rewrite (bind_Ret _ _ _ _ _ _
             (parse_rewrite_signum_eq optarg0 g 0 R Hscan ltac:(done) HR Hlen)).
  cbn [Z.eqb].
  rewrite (parse_options_singles cl optargs singles _ Hsingles)
    by apply length_replicate.
  eexists. split; [done|]. cbn [signal_rewrite set_signal_rewrite].
  split; [done|]. intros S HS. apply rewritten_table_lookup; [done|].
  clear -Hsingles. induction Hsingles as [|? ? ? ? (_ & ? & _)]; constructor; [lia|done].
Qed.

(** ** The end of parse_command *)

Lemma bind_inv_Ret {A B} (m : M A) (k : A → M B) g b g' t :
  bind m k g = (Ret b, g', t) →
  ∃ a g1 t1 t2, m g = (Ret a, g1, t1) ∧ k a g1 = (Ret b, g', t2) ∧ t = t1 ++ t2.
Proof.
  unfold bind. destruct (m g) as [[[a| | | |] g1] t1]; try done.
  destruct (k a g1) as [[r2 g2] t2] eqn:Hk. intros [= -> -> <-].
  by exists a, g1, t1, t2.
Qed.

Lemma set_rewrite_to_sigstop_eq S g :
  0 ≤ S ≤ MAXSIG →
  set_rewrite_to_sigstop_if_not_defined S g =
    match signal_rewrite g !! Z.to_nat S with
    | Some _ => (Ret tt, set_signal_rewrite (sigstop_default (signal_rewrite g) S) g, [])
    | None => (Undefined, g, [])
    end.
Proof.
  intros HS. unfold set_rewrite_to_sigstop_if_not_defined, sigstop_default.
  unfold bind, read_rewrite, write_rewrite. rewrite in_bounds_true by done.
  destruct (signal_rewrite g !! Z.to_nat S) as [v|] eqn:Hv; [|done].
  destruct (v =? -1); [by rewrite Hv|]. by destruct g.
Qed.

Lemma sigstop_default_length t S : length (sigstop_default t S) = length t.
Proof.
  unfold sigstop_default. repeat case_match; by rewrite ?length_insert.
Qed.

Lemma sigstop_default_lookup t S j :
  sigstop_default t S !! j =
    if decide (j = Z.to_nat S)
    then (λ v, if v =? -1 then SIGSTOP else v) <$> t !! j
    else t !! j.
Proof.
  unfold sigstop_default. case_decide as Hj.
  - subst j. destruct (t !! Z.to_nat S) as [v|] eqn:Hv; rewrite ?Hv; [|done].
    destruct (v =? -1) eqn:Hm; rewrite ?Hv; cbn; rewrite ?Hm; [|done].
    rewrite list_lookup_insert_eq; [done|by eapply lookup_lt_Some].
  - destruct (t !! Z.to_nat S) as [v|]; [|done].
    destruct (v =? -1); [|done]. by rewrite list_lookup_insert_ne.
Qed.

Lemma parse_command_tail_eq cl g1 o os :
  cl_cmd cl = o :: os →
  ∃ t0,
    parse_command_tail cl g1 =
      (let g2 := after_env cl g1 in
       let '(r, g, t) :=
         bind (if use_setsid g2 then
                 set_rewrite_to_sigstop_if_not_defined SIGTSTP ;;
                 set_rewrite_to_sigstop_if_not_defined SIGTTOU ;;
                 set_rewrite_to_sigstop_if_not_defined SIGTTIN
               else ret tt)
              (λ _, ret (cl_cmd cl)) g2 in
       (r, g, t0 ++ t)).
Proof.
  intros Hcmd. unfold parse_command_tail, after_env. rewrite Hcmd.
  rewrite bind_ret.
  destruct (cl_DUMB_INIT_DEBUG cl) as [debug_env|];
    [destruct (String.eqb debug_env "1")|];
    (destruct (cl_DUMB_INIT_SETSID cl) as [setsid_env|];
      [destruct (String.eqb setsid_env "0")|]);
    repeat mstep; cbv zeta.
  all: match goal with
       | |- context [bind ?m ?k ?g] => destruct (bind m k g) as [[r g'] t]
       end.
  all: first [ by exists [] | by eexists | eexists; by rewrite app_assoc ].
Qed.

Lemma sigstop_step {B} S g (k : unit → M B) :
  0 ≤ S ≤ MAXSIG →
  bind (set_rewrite_to_sigstop_if_not_defined S) k g =
    match signal_rewrite g !! Z.to_nat S with
    | Some _ => k tt (set_signal_rewrite (sigstop_default (signal_rewrite g) S) g)
    | None => (Undefined, g, [])
    end.
Proof.
  intros HS. unfold bind at 1. rewrite (set_rewrite_to_sigstop_eq S g HS).
  destruct (signal_rewrite g !! Z.to_nat S); [|done].
  by destruct (k tt _) as [[? ?] ?].
Qed.

Lemma after_env_tables cl g :
  signal_rewrite (after_env cl g) = signal_rewrite g ∧
  signal_action (after_env cl g) = signal_action g.
Proof. unfold after_env. by repeat case_match. Qed.

(** A [parse_command] tail that returns has applied the setsid defaults. *)
Lemma parse_command_tail_Ret cl g1 cmd g t :
  parse_command_tail cl g1 = (Ret cmd, g, t) →
  let g2 := after_env cl g1 in
  cmd = cl_cmd cl ∧ cl_cmd cl ≠ [] ∧
  g = if use_setsid g2
      then set_signal_rewrite (sigstop_defaults (signal_rewrite g2)) g2
      else g2.
Proof.
  destruct (cl_cmd cl) as [|o os] eqn:Hcmd.
  { unfold parse_command_tail. rewrite Hcmd. by repeat mstep. }
  destruct (parse_command_tail_eq cl g1 o os Hcmd) as [t0 ->]. cbv zeta.
  rewrite <- Hcmd. unfold sigstop_defaults.
  destruct (use_setsid (after_env cl g1)).
  - rewrite !bind_assoc, sigstop_step by done. cbv beta.
    destruct (signal_rewrite _ !! Z.to_nat SIGTSTP); [|done].
    rewrite ?bind_assoc, sigstop_step by done. cbv beta.
    destruct (signal_rewrite _ !! Z.to_nat SIGTTOU); [|done].
    rewrite ?bind_assoc, sigstop_step by done. cbv beta.
    destruct (signal_rewrite _ !! Z.to_nat SIGTTIN); [|done].
    unfold ret. rewrite Hcmd. by intros [= <- <- <-].
  - rewrite bind_ret. unfold ret. rewrite Hcmd. by intros [= <- <- <-].
Qed.

Lemma sigstop_defaults_lookup t j :
  sigstop_defaults t !! j =
    if decide (j = Z.to_nat SIGTSTP ∨ j = Z.to_nat SIGTTOU ∨ j = Z.to_nat SIGTTIN)
    then (λ v, if v =? -1 then SIGSTOP else v) <$> t !! j
    else t !! j.
Proof.
  unfold sigstop_defaults. rewrite !sigstop_default_lookup.
  change (Z.to_nat SIGTSTP) with 20%nat. change (Z.to_nat SIGTTOU) with 22%nat.
  change (Z.to_nat SIGTTIN) with 21%nat.
  repeat case_decide; try done; exfalso; lia.
Qed.

(** C5. After [parse_command], in setsid mode, each of the slots of
    SIGTSTP, SIGTTOU and SIGTTIN that the options left unset holds
    SIGSTOP, and every slot of the table that the options set, these
    three included, holds what they set. *)
Theorem setsid_stop_signal_defaults cl g0 g1 t1 cmd g t S :
  parse_options cl (cl_opts cl) g0 = (Ret tt, g1, t1) →
  parse_command cl g0 = (Ret cmd, g, t) →
  use_setsid g = true →
  S = SIGTSTP ∨ S = SIGTTOU ∨ S = SIGTTIN →
  (signal_rewrite g1 !! Z.to_nat S = Some UNSET →
   signal_rewrite g !! Z.to_nat S = Some SIGSTOP) ∧
  (∀ j v, signal_rewrite g1 !! j = Some v → v ≠ UNSET →
          signal_rewrite g !! j = Some v).
Proof.
  intros Hopts Hcmd Hsetsid HS.
  unfold parse_command in Hcmd. rewrite (bind_Ret _ _ _ _ _ _ Hopts) in Hcmd.
  destruct (parse_command_tail cl g1) as [[r' g'] t'] eqn:Htail.
  injection Hcmd as -> -> <-.
  apply parse_command_tail_Ret in Htail as (_ & _ & Hg). cbv zeta in Hg.
  destruct (after_env_tables cl g1) as [Htab _].
  assert (signal_rewrite g = sigstop_defaults (signal_rewrite g1)) as ->.
  { destruct (use_setsid (after_env cl g1)) eqn:Hs; subst g.
    - cbn. by rewrite Htab.
    - congruence. }
  split.
  - rewrite sigstop_defaults_lookup.
    rewrite decide_True by (destruct HS as [->|[->| ->]]; auto).
    by intros ->.
  - intros j v Hj Hv. rewrite sigstop_defaults_lookup, Hj.
    case_decide; [|done]. cbn. unfold UNSET in Hv.
    by replace (v =? -1) with false by lia.
Qed.

(** ** What the options leave in the two tables *)

Lemma parse_rewrite_signum_Ret optarg g g1 t1 :
  length (signal_rewrite g) = 65%nat →
  parse_rewrite_signum optarg g = (Ret tt, g1, t1) →
  ∃ S R, sscanf_d_colon_d optarg = Some (2, [S; R]) ∧
         0 ≤ S ≤ MAXSIG ∧ 0 ≤ R ≤ MAXSIG ∧
         g1 = set_signal_rewrite
                (if S =? 0 then replicate 65 R
                 else <[Z.to_nat S := R]> (signal_rewrite g)) g.
Proof.
  intros Hlen. unfold parse_rewrite_signum.
  destruct (sscanf_d_colon_d optarg) as [[n vals]|] eqn:Hscan; [|done].
  repeat case_match; try done; subst; intros Hrun;
    match goal with
    | H : _ = Some (2, [?S; ?R]), Hr : _ && _ = true, H0 : (?S =? 0) = _ |- _ =>
        exists S, R;
        pose proof (parse_rewrite_signum_eq optarg g S R H
                      ltac:(lia) ltac:(lia) Hlen) as Heq;
        unfold parse_rewrite_signum in Heq; rewrite H, Hr, H0 in Heq;
        rewrite Heq in Hrun; injection Hrun as <- <-;
        rewrite H0; split_and!; try done; lia
    end.
Qed.

Lemma parse_action_Ret optarg g g1 t1 :
  tables_ok g →
  parse_action optarg g = (Ret tt, g1, t1) →
  ∃ S position,
    sscanf_d_colon_n optarg = Some (1, [S; position]) ∧ 0 ≤ S ≤ MAXSIG ∧
    g1 = set_signal_rewrite (<[Z.to_nat S := -2]> (signal_rewrite g))
           (set_signal_action
              (<[Z.to_nat S := string_from optarg (Z.to_nat position)]> (signal_action g))
              g).
Proof.
  intros [Hlr Hla]. unfold parse_action.
  destruct (sscanf_d_colon_n optarg) as [[status [|S stored]]|] eqn:Hscan;
    [done| |done].
  destruct ((status =? 1) && ((0 <=? S) && (S <=? MAXSIG))) eqn:Hr; [|done].
  destruct stored as [|position [|? ?]]; [done| |done].
  assert (status = 1) as -> by lia. assert (0 ≤ S ≤ MAXSIG) as HS by lia.
  mstep. unfold bind, write_action, write_rewrite.
  rewrite in_bounds_true by done.
  destruct (lookup_lt_is_Some_2 (signal_action g) (Z.to_nat S)
              ltac:(unfold MAXSIG in *; lia)) as [x ->].
  cbn [signal_rewrite set_signal_action].
  destruct (lookup_lt_is_Some_2 (signal_rewrite g) (Z.to_nat S)
              ltac:(unfold MAXSIG in *; lia)) as [y ->].
  intros [= <- <-]. by exists S, position.
Qed.


Lemma last_omap_snoc {A B} (f : A → option B) (l : list A) (x : A) :
  last (omap f (l ++ [x])) =
    match f x with
    | Some y => Some y
    | None => last (omap f l)
    end.
Proof.
  rewrite omap_app. cbn [omap list_omap].
  destruct (f x); [apply last_snoc | by rewrite app_nil_r].
Qed.

Lemma parsed_initial : parsed [] initial_globals.
Proof.
  split; [done|]. intros S HS.
  split; apply lookup_replicate_2; unfold MAXSIG in HS; lia.
Qed.

(** An option that writes neither table. *)
Lemma parsed_snoc_flag seen o g g1 :
  parsed seen g →
  signal_rewrite g1 = signal_rewrite g → signal_action g1 = signal_action g →
  (∀ S, slot_write S o = None) → (∀ S, action_of S o = None) →
  parsed (seen ++ [o]) g1.
Proof.
  intros [Hok Hinv] Hr Ha Hw Hact. split.
  - unfold tables_ok. by rewrite Hr, Ha.
  - intros S HS. unfold last_write, last_action.
    rewrite !last_omap_snoc, Hw, Hact, Hr, Ha. by apply Hinv.
Qed.

Lemma parsed_snoc_rewrite seen optarg g g1 t1 :
  parsed seen g →
  parse_rewrite_signum optarg g = (Ret tt, g1, t1) →
  parsed (seen ++ [Opt_r optarg]) g1.
Proof.
  intros [[Hlr Hla] Hinv] Hrun.
  apply parse_rewrite_signum_Ret in Hrun as (S & R & Hscan & HS & HR & ->); [|done].
  split.
  - split; [|done]. cbn. destruct (S =? 0); by rewrite ?length_insert.
  - intros S' HS'. unfold last_write, last_action. rewrite !last_omap_snoc.
    cbn [action_of slot_write signal_rewrite signal_action set_signal_rewrite].
    rewrite Hscan.
    replace ((0 <=? S) && (S <=? MAXSIG)) with true by lia.
    replace ((0 <=? R) && (R <=? MAXSIG)) with true by lia. cbn [andb].
    split; [|by apply Hinv].
    destruct (Z.eqb_spec S 0) as [->|HS0]; cbn [orb default].
    + apply lookup_replicate_2. unfold MAXSIG in HS'. lia.
    + destruct (Z.eqb_spec S S') as [->|Hne]; cbn [default].
      * apply list_lookup_insert_eq. rewrite Hlr. unfold MAXSIG in HS'. lia.
      * rewrite list_lookup_insert_ne by lia. by apply Hinv.
Qed.

Lemma parsed_snoc_action seen optarg g g1 t1 :
  parsed seen g →
  parse_action optarg g = (Ret tt, g1, t1) →
  parsed (seen ++ [Opt_a optarg]) g1.
Proof.
  intros [[Hlr Hla] Hinv] Hrun.
  apply parse_action_Ret in Hrun as (S & position & Hscan & HS & ->); [|done].
  split.
  - split; cbn; by rewrite length_insert.
  - intros S' HS'. unfold last_write, last_action. rewrite !last_omap_snoc.
    cbn [action_of slot_write signal_rewrite signal_action set_signal_rewrite
         set_signal_action].
    rewrite Hscan.
    destruct (Z.eqb_spec S S') as [->|Hne]; cbn [default].
    + split; apply list_lookup_insert_eq; [rewrite Hlr|rewrite Hla];
        unfold MAXSIG in HS'; lia.
    + rewrite !list_lookup_insert_ne by lia. by apply Hinv.
Qed.

Lemma parse_options_parsed cl opts : ∀ seen g g' t,
  parsed seen g →
  parse_options cl opts g = (Ret tt, g', t) →
  parsed (seen ++ opts) g'.
Proof.
  induction opts as [|o opts IH]; intros seen g g' t Hinv Hrun.
  - injection Hrun as <- _. by rewrite app_nil_r.
  - cbn [parse_options] in Hrun.
    apply bind_inv_Ret in Hrun as (u & g1 & t1 & t2 & Hstep & Hrest & _).
    replace (seen ++ o :: opts) with ((seen ++ [o]) ++ opts)
      by (by rewrite <- app_assoc).
    apply (IH _ g1 _ t2); [|done]. clear Hrest IH. destruct u.
    destruct o as [| | | | |optarg|optarg|]; try done.
    + injection Hstep as <- _. by apply (parsed_snoc_flag seen Opt_v g).
    + injection Hstep as <- _. by apply (parsed_snoc_flag seen Opt_c g).
    + injection Hstep as <- _. by apply (parsed_snoc_flag seen Opt_b g).
    + by eapply parsed_snoc_rewrite.
    + by eapply parsed_snoc_action.
Qed.

Lemma parse_command_Ret cl g0 cmd g t :
  parse_command cl g0 = (Ret cmd, g, t) →
  ∃ g1 t1,
    parse_options cl (cl_opts cl) g0 = (Ret tt, g1, t1) ∧
    signal_action g = signal_action g1 ∧
    (signal_rewrite g = signal_rewrite g1 ∨
     signal_rewrite g = sigstop_defaults (signal_rewrite g1)).
Proof.
  intros Hrun. unfold parse_command in Hrun.
  apply bind_inv_Ret in Hrun as ([] & g1 & t1 & t2 & Hopts & Htail & _).
  exists g1, t1. split; [done|].
  apply parse_command_tail_Ret in Htail as (_ & _ & ->). cbv zeta.
  destruct (after_env_tables cl g1) as [Hr Ha].
  destruct (use_setsid (after_env cl g1)); cbn; rewrite ?Hr, ?Ha; auto.
Qed.

(** The last write to a slot is an action only if the last action
    option for that slot is the option that made it. *)
Lemma last_write_action S opts :
  last_write S opts = Some ACTION → is_Some (last_action S opts).
Proof.
  unfold last_write, last_action.
  induction opts as [|o opts IH] using rev_ind; [done|].
  rewrite !last_omap_snoc. destruct o as [| | | | |optarg|optarg|]; try done.
  - cbn [slot_write action_of].
    destruct (sscanf_d_colon_d optarg) as [[n vals]|]; [|done].
    repeat case_match; try done. intros ?. simplify_eq.
    unfold ACTION, MAXSIG in *. lia.
  - cbn [slot_write]. destruct (action_of S (Opt_a optarg)); [by eexists|done].
Qed.

(** C7, as the code has it.  After [parse_command], for every S from 1
    to MAXSIG: slot S of the rewrite table holds ACTION exactly when the
    last option that wrote the slot (an action for S, a rewrite for S or
    a bulk rewrite) was an action option; slot S of the action table
    holds the command text of the last action option for S, which may be
    empty, or the empty string if there was none; and when the rewrite
    slot holds ACTION such an option exists. *)
Theorem action_slots_after_parsing cl cmd g t S :
  run (parse_command cl) = (Ret cmd, g, t) → 1 ≤ S ≤ MAXSIG →
  (signal_rewrite g !! Z.to_nat S = Some ACTION ↔
   last_write S (cl_opts cl) = Some ACTION) ∧
  signal_action g !! Z.to_nat S =
    Some (default EmptyString (last_action S (cl_opts cl))) ∧
  (signal_rewrite g !! Z.to_nat S = Some ACTION →
   ∃ c, last_action S (cl_opts cl) = Some c ∧
        signal_action g !! Z.to_nat S = Some c).
Proof.
  intros Hrun HS.
  apply parse_command_Ret in Hrun as (g1 & t1 & Hopts & Ha & Hr).
  apply (parse_options_parsed cl _ [] _ _ _ parsed_initial) in Hopts
    as [_ Hinv].
  destruct (Hinv S ltac:(lia)) as [Hrw Hact]. cbn [app] in *.
  assert (signal_rewrite g !! Z.to_nat S = Some ACTION ↔
          last_write S (cl_opts cl) = Some ACTION) as Hiff.
  { assert (signal_rewrite g1 !! Z.to_nat S = Some ACTION ↔
            last_write S (cl_opts cl) = Some ACTION) as H1.
    { rewrite Hrw. destruct (last_write S (cl_opts cl)); cbn; [|done].
      split; congruence. }
    destruct Hr as [-> | ->]; [done|].
    rewrite sigstop_defaults_lookup, <- H1.
    case_decide; [|done]. destruct (signal_rewrite g1 !! Z.to_nat S) as [v|]; [|done].
    cbn. destruct (Z.eqb_spec v (-1)) as [->|]; [|done].
    split; intros [= ?]; done. }
  rewrite Ha. split_and!; [done..|].
  intros Hslot. apply Hiff, last_write_action in Hslot as [c Hc].
  exists c. by rewrite Hact, Hc.
Qed.

(** ** The range check of the action option *)


(** A signal number below 0 or above MAXSIG is refused. *)
Lemma parse_action_out_of_range optarg g status S stored :
  sscanf_d_colon_n optarg = Some (status, S :: stored) →
  S < 0 ∨ MAXSIG < S →
  parse_action optarg g = (Exit 1, g, [action_usage]).
Proof.
  intros Hscan HS. unfold parse_action. rewrite Hscan.
  by replace ((status =? 1) && ((0 <=? S) && (S <=? MAXSIG))) with false by lia.
Qed.

(** Signal number 0 passes the check [signum >= 0 && signum <= MAXSIG]. *)
Lemma parse_action_zero optarg g position :
  tables_ok g →
  sscanf_d_colon_n optarg = Some (1, [0; position]) →
  parse_action optarg g =
    (Ret tt,
     set_signal_rewrite (<[0%nat := -2]> (signal_rewrite g))
       (set_signal_action
          (<[0%nat := string_from optarg (Z.to_nat position)]> (signal_action g)) g),
     dbg g "signal action: %d, position %d\n" [AInt 0; AInt position]).
Proof.
  intros [Hlr Hla] Hscan. unfold parse_action. rewrite Hscan.
  change ((1 =? 1) && ((0 <=? 0) && (0 <=? MAXSIG))) with true. cbv iota.
  mstep. unfold bind, write_action, write_rewrite.
  rewrite in_bounds_true by done. change (Z.to_nat 0) with 0%nat.
  destruct (signal_action g) as [|a0 acts] eqn:Ea; [done|].
  cbn [lookup list_lookup signal_rewrite set_signal_action].
  destruct (signal_rewrite g) as [|r0 rws] eqn:Er; [done|].
  cbn [lookup list_lookup]. by rewrite app_nil_r.
Qed.

(** ** The theorems at concrete inputs *)

(** [dumb-init -b sleep 60] after the child has gone: a heartbeat finds
    nothing to reap and /proc cannot be opened. *)
Lemma enumeration_failure_exits_witness :
  (survive_bereaving survivor = true ∧ bereaved survivor = true ∧
   env_waitpid blind_heartbeat = [] ∧ env_proc blind_heartbeat = None) ∧
  (process_count blind_heartbeat survivor).1.1 = Ret (-1) ∧
  handle_signal blind_heartbeat SIGCHLD survivor =
    (Exit 0, survivor,
     dbg survivor "Received signal %d.\n" [AInt SIGCHLD] ++
     EStderr "[dumb-init] Could not open /proc.\n" [] ::
     dbg survivor "Process count: %d\n" [AInt (-1)] ++
     dbg survivor "No process left, exitting.\n" []).
Proof.
  split; [by vm_compute|].
  apply (enumeration_failure_exits blind_heartbeat survivor); reflexivity.
Defined.



(** [dumb-init -a '15:echo bye' sleep 60]: the child exits with code 0,
    the fork for the action on SIGTERM fails, and the supervisor exits
    with code 1. *)
Lemma bereavement_exit_code_counterexample :
  survive_bereaving (configured [Opt_a "15:echo bye"]) = false ∧
  WIFEXITED 0 = true ∧ WEXITSTATUS 0 = 0 ∧
  (handle_signal (child_reaped 0 (-1)) SIGCHLD
     (configured [Opt_a "15:echo bye"])).1.1 = Exit 1 ∧
  (handle_signal (child_reaped 0 (-1)) SIGCHLD
     (configured [Opt_a "15:echo bye"])).1.1 ≠ Exit (WEXITSTATUS 0).
Proof. by vm_compute. Qed.

Lemma bereavement_exit_code_witness :
  (env_waitpid two_reaped = [(77, 9)] ++ (child_pid (configured []), 768) :: [] ∧
   Forall (other_child (configured [])) [(77, 9)] ∧
   child_pid (configured []) > 0 ∧ survive_bereaving (configured []) = false ∧
   tables_ok (configured []) ∧
   signal_rewrite (configured []) !! Z.to_nat SIGTERM = Some UNSET) ∧
  let r := (handle_signal two_reaped SIGCHLD (configured [])).1.1 in
  (UNSET ≠ ACTION ∨ env_fork two_reaped > 0 →
   (WIFEXITED 768 = true →
    r = Exit (WEXITSTATUS 768) ∧
    WEXITSTATUS 768 = Z.shiftr 768 8 `mod` 256) ∧
   (WIFSIGNALED 768 = true → r = Exit (128 + WTERMSIG 768))) ∧
  (UNSET = ACTION → env_fork two_reaped < 0 → reapable 768 = true → r = Exit 1).
Proof.
  assert (Forall (other_child (configured [])) [(77, 9)]) as Hpre.
  { repeat constructor; by vm_compute. }
  split.
  - split_and!; [reflexivity|exact Hpre|reflexivity..|split; reflexivity|reflexivity].
  - apply (bereavement_exit_code two_reaped (configured []) [(77, 9)] 768 [] UNSET);
      [reflexivity|exact Hpre|reflexivity..|split; reflexivity|reflexivity].
Defined.

(** [dumb-init -r 2:0 sleep 60] receiving SIGINT. *)
Lemma ignored_signal_calls_kill_witness :
  (1 ≤ 2 ≤ MAXSIG ∧ 2 ≠ SIGCHLD ∧
   signal_rewrite (configured [Opt_r "2:0"]) !! Z.to_nat 2 = Some IGNORE) ∧
  let '(r, g', t) :=
    handle_signal (example_env [] 0 None) 2 (configured [Opt_r "2:0"]) in
  r = Ret tt ∧ g' = configured [Opt_r "2:0"] ∧
  kills t = (target (configured [Opt_r "2:0"]), 0) ::
            (if is_tty_signal 2 then [(env_getpid (example_env [] 0 None), SIGSTOP)]
             else []) ∧
  (debug (configured [Opt_r "2:0"]) = true →
   EStderr "[dumb-init] Forwarded signal %d to children.\n" [AInt 0] ∈ t).
Proof.
  split.
  - split_and!; [by vm_compute..|reflexivity].
  - apply (ignored_signal_calls_kill (example_env [] 0 None) 2
             (configured [Opt_r "2:0"])); [by vm_compute..|reflexivity].
Defined.

(** [dumb-init -r 20:0 sleep 60]: SIGTSTP was rewritten, SIGTTOU was
    left unset. *)
Lemma setsid_stop_signal_defaults_witness :
  (parse_options (example_cmdline [Opt_r "20:0"]) (cl_opts (example_cmdline [Opt_r "20:0"]))
     initial_globals =
     (Ret tt, (run (parse_options (example_cmdline [Opt_r "20:0"]) [Opt_r "20:0"])).1.2, []) ∧
   parse_command (example_cmdline [Opt_r "20:0"]) initial_globals =
     (Ret ["sleep"; "60"], (run (parse_command (example_cmdline [Opt_r "20:0"]))).1.2, []) ∧
   use_setsid (run (parse_command (example_cmdline [Opt_r "20:0"]))).1.2 = true ∧
   (SIGTTOU = SIGTSTP ∨ SIGTTOU = SIGTTOU ∨ SIGTTOU = SIGTTIN)) ∧
  (signal_rewrite (run (parse_options (example_cmdline [Opt_r "20:0"]) [Opt_r "20:0"])).1.2
     !! Z.to_nat SIGTTOU = Some UNSET →
   signal_rewrite (run (parse_command (example_cmdline [Opt_r "20:0"]))).1.2
     !! Z.to_nat SIGTTOU = Some SIGSTOP) ∧
  (∀ j v, signal_rewrite (run (parse_options (example_cmdline [Opt_r "20:0"]) [Opt_r "20:0"])).1.2
            !! j = Some v → v ≠ UNSET →
          signal_rewrite (run (parse_command (example_cmdline [Opt_r "20:0"]))).1.2
            !! j = Some v).
Proof.
  split.
  - split_and!; [by vm_compute..|auto].
  - apply (setsid_stop_signal_defaults (example_cmdline [Opt_r "20:0"])
             initial_globals _ [] ["sleep"; "60"] _ [] SIGTTOU);
      [by vm_compute..|auto].
Defined.

(** [-r 0:5 -r 3:7 -r 4:0 -r 3:9]. *)
Lemma bulk_then_single_rewrites_witness :
  (tables_ok initial_globals ∧
   sscanf_d_colon_d "0:5" = Some (2, [0; 5]) ∧ 0 ≤ 5 ≤ MAXSIG ∧
   Forall2 single_rewrite ["3:7"; "4:0"; "3:9"] [(3, 7); (4, 0); (3, 9)]) ∧
  ∃ g', parse_options (example_cmdline [])
          (Opt_r "0:5" :: map Opt_r ["3:7"; "4:0"; "3:9"]) initial_globals =
        (Ret tt, g', []) ∧
    signal_rewrite g' = rewritten_table 5 [(3, 7); (4, 0); (3, 9)] ∧
    ∀ S, 0 ≤ S ≤ MAXSIG →
      signal_rewrite g' !! Z.to_nat S =
        Some (last_rewrite 5 [(3, 7); (4, 0); (3, 9)] S).
Proof.
  assert (Forall2 single_rewrite ["3:7"; "4:0"; "3:9"] [(3, 7); (4, 0); (3, 9)])
    as Hsingles.
  { repeat constructor; by vm_compute. }
  split.
  - split_and!; [split; reflexivity|reflexivity|by vm_compute..|exact Hsingles].
  - apply (bulk_then_single_rewrites (example_cmdline []) initial_globals
             "0:5" 5 ["3:7"; "4:0"; "3:9"] [(3, 7); (4, 0); (3, 9)]);
      [split; reflexivity|reflexivity|by vm_compute..|exact Hsingles].
Defined.

(** [dumb-init -a 5: -a 6:x -r 6:3 sleep 60]: slot 5 is ACTION with an
    empty command; slot 6 has a non-empty command and is not ACTION. *)
Lemma action_slots_counterexample :
  let g := (run (parse_command
                   (example_cmdline [Opt_a "5:"; Opt_a "6:x"; Opt_r "6:3"]))).1.2 in
  (signal_rewrite g !! 5%nat = Some ACTION ∧
   signal_action g !! 5%nat = Some EmptyString) ∧
  (signal_action g !! 6%nat = Some "x" ∧ signal_rewrite g !! 6%nat = Some 3 ∧
   signal_rewrite g !! 6%nat ≠ Some ACTION).
Proof. by vm_compute. Qed.

Lemma action_slots_after_parsing_witness :
  (run (parse_command (example_cmdline [Opt_a "5:"; Opt_a "6:x"; Opt_r "6:3"])) =
     (Ret ["sleep"; "60"],
      (run (parse_command
              (example_cmdline [Opt_a "5:"; Opt_a "6:x"; Opt_r "6:3"]))).1.2, []) ∧
   1 ≤ 6 ≤ MAXSIG) ∧
  (signal_rewrite
     (run (parse_command
             (example_cmdline [Opt_a "5:"; Opt_a "6:x"; Opt_r "6:3"]))).1.2
     !! Z.to_nat 6 = Some ACTION ↔
   last_write 6 (cl_opts (example_cmdline [Opt_a "5:"; Opt_a "6:x"; Opt_r "6:3"])) =
     Some ACTION) ∧
  signal_action
    (run (parse_command
            (example_cmdline [Opt_a "5:"; Opt_a "6:x"; Opt_r "6:3"]))).1.2
    !! Z.to_nat 6 =
    Some (default EmptyString
            (last_action 6
               (cl_opts (example_cmdline [Opt_a "5:"; Opt_a "6:x"; Opt_r "6:3"])))) ∧
  (signal_rewrite
     (run (parse_command
             (example_cmdline [Opt_a "5:"; Opt_a "6:x"; Opt_r "6:3"]))).1.2
     !! Z.to_nat 6 = Some ACTION →
   ∃ c, last_action 6
          (cl_opts (example_cmdline [Opt_a "5:"; Opt_a "6:x"; Opt_r "6:3"])) = Some c ∧
        signal_action
          (run (parse_command
                  (example_cmdline [Opt_a "5:"; Opt_a "6:x"; Opt_r "6:3"]))).1.2
          !! Z.to_nat 6 = Some c).
Proof.
  split.
  - split; by vm_compute.
  - apply (action_slots_after_parsing
             (example_cmdline [Opt_a "5:"; Opt_a "6:x"; Opt_r "6:3"])
             ["sleep"; "60"] _ [] 6); by vm_compute.
Defined.

(** C8. What the code does with [-a 0:echo]: the action option takes
    signal number 0, although its usage message gives the range as 1 to
    MAXSIG.  Parsing succeeds, slot 0 of both tables is written, and
    [main] goes on to fork the child. *)
Theorem action_signal_zero_accepted :
  parse_action "0:echo" initial_globals =
    (Ret tt,
     set_signal_rewrite (<[0%nat := ACTION]> (signal_rewrite initial_globals))
       (set_signal_action (<[0%nat := "echo"]> (signal_action initial_globals))
          initial_globals),
     []) ∧
  (run (parse_command (example_cmdline [Opt_a "0:echo"]))).1.1 = Ret ["sleep"; "60"] ∧
  (let '(r, g, t) := run (main (example_cmdline [Opt_a "0:echo"]) example_launch []) in
   r = Ret tt ∧ forks t = [42] ∧
   signal_rewrite g !! 0%nat = Some ACTION ∧ signal_action g !! 0%nat = Some "echo" ∧
   action_usage ∉ t).
Proof.
  split_and!; [by vm_compute..|].
  vm_compute. split_and!; try reflexivity.
  intros H. by repeat (apply elem_of_cons in H as [H|H]; [discriminate H|]);
    apply elem_of_nil in H.
Qed.

(** [dumb-init -a '10:echo hit' sleep 60] receiving SIGUSR1; the fork
    of the action returns 77. *)
Lemma action_keeps_child_pid_witness :
  (1 ≤ 10 ≤ MAXSIG ∧ tables_ok (configured [Opt_a "10:echo hit"]) ∧
   signal_rewrite (configured [Opt_a "10:echo hit"]) !! Z.to_nat 10 = Some ACTION) ∧
  let '(r, g', t) :=
    handle_signal (example_env [] 77 None) 10 (configured [Opt_a "10:echo hit"]) in
  child_pid g' = child_pid (configured [Opt_a "10:echo hit"]) ∧
  (10 ≠ SIGCHLD → forks t = [env_fork (example_env [] 77 None)]) ∧
  ∀ e2 S2 p s, (p, s) ∈ kills (forward_signal e2 S2 g').2 →
               p = target (configured [Opt_a "10:echo hit"]).
Proof.
  split.
  - split_and!; [by vm_compute..|split; reflexivity|reflexivity].
  - apply (action_keeps_child_pid (example_env [] 77 None) 10
             (configured [Opt_a "10:echo hit"]));
      [by vm_compute|split; reflexivity|reflexivity].
Defined.

(** The same supervisor when the fork of the action fails; a SIGTERM
    that is queued behind the SIGUSR1 is never handled. *)
Lemma action_fork_failure_exits_witness :
  (1 ≤ 10 ≤ MAXSIG ∧ 10 ≠ SIGCHLD ∧ tables_ok (configured [Opt_a "10:echo hit"]) ∧
   signal_rewrite (configured [Opt_a "10:echo hit"]) !! Z.to_nat 10 = Some ACTION ∧
   env_fork (example_env [] (-1) None) < 0) ∧
  let '(r, g', t) :=
    pump (mkTurn 10 0 (example_env [] (-1) None) ::
          [mkTurn SIGTERM 0 (example_env [] 0 None)])
         (configured [Opt_a "10:echo hit"]) in
  r = Exit 1 ∧ g' = configured [Opt_a "10:echo hit"] ∧ kills t = [] ∧
  forks t = [env_fork (example_env [] (-1) None)] ∧
  last t = Some (EStderr "[dumb-init] Unable to fork. Exiting.\n" []).
Proof.
  split.
  - split_and!; [by vm_compute..|split; reflexivity|reflexivity|by vm_compute].
  - apply (action_fork_failure_exits (example_env [] (-1) None) 10
             (configured [Opt_a "10:echo hit"]) 0
             [mkTurn SIGTERM 0 (example_env [] 0 None)]);
      [by vm_compute..|split; reflexivity|reflexivity|by vm_compute].
Defined.

(** ** Further properties: counting processes *)

Lemma process_count_loop_eq entries g : ∀ count,
  0 ≤ count ≤ 1 →
  ∃ t, process_count_loop entries count g =
         (Ret (Z.min 2 (count + numeric_entries entries)), g, t) ∧
       kills t = [] ∧ forks t = [].
Proof.
  unfold numeric_entries.
  induction entries as [|d_name entries IH]; intros count Hc.
  - exists []. cbn [process_count_loop List.filter length]. unfold ret.
    split; [|done]. do 3 f_equal. lia.
  - cbn [process_count_loop List.filter].
    destruct (negb (nonnumber d_name)); cbn [length].
    + mstep. destruct (Z.gtb_spec (count + 1) 1) as [Hgt|Hle].
      * exists (dbg g "/proc/%s is a process\n" [AStr d_name]).
        rewrite kills_dbg, forks_dbg. split; [|done].
        unfold ret. rewrite app_nil_r. do 3 f_equal. lia.
      * destruct (IH (count + 1) ltac:(lia)) as (t & -> & Hk & Hf).
        exists (dbg g "/proc/%s is a process\n" [AStr d_name] ++ t).
        rewrite kills_app, forks_app, kills_dbg, forks_dbg, Hk, Hf.
        split; [|done]. do 3 f_equal. lia.
    + destruct (IH count Hc) as (t & -> & Hk & Hf). by exists t.
Qed.



(** ** Further properties: what the pump keeps *)

Section Preserved.
Context (R : globals → globals → Prop).
Hypothesis R_refl : ∀ g, R g g.
Hypothesis R_trans : ∀ g1 g2 g3, R g1 g2 → R g2 g3 → R g1 g3.
Hypothesis R_bereaved : ∀ g, R g (set_bereaved true g).

Lemma preserves_bind {A B} (m : M A) (k : A → M B) :
  preserves R m → (∀ a, preserves R (k a)) → preserves R (bind m k).
Proof.
  intros Hm Hk g. unfold bind. specialize (Hm g).
  destruct (m g) as [[r g1] t1]; cbn [fst snd] in *.
  destruct r; cbn [fst snd]; try done.
  specialize (Hk a g1). destruct (k a g1) as [[r2 g2] t2]; cbn [fst snd] in *.
  by eapply R_trans.
Qed.

Lemma preserves_const {A} (r : result A) (t : list event) :
  preserves R (λ g, (r, g, t)).
Proof. intros g. apply R_refl. Qed.

Lemma preserves_get {A} (f : globals → A) : preserves R (get f).
Proof. intros g. apply R_refl. Qed.

Lemma preserves_read_rewrite i : preserves R (read_rewrite i).
Proof. intros g. unfold read_rewrite. repeat case_match; apply R_refl. Qed.

Lemma preserves_read_action i : preserves R (read_action i).
Proof. intros g. unfold read_action. repeat case_match; apply R_refl. Qed.

Ltac preserves_step :=
  lazymatch goal with
  | |- preserves _ (bind _ _) => apply preserves_bind; [| intros ?]
  | |- preserves _ (if ?b then _ else _) => destruct b
  | |- preserves _ (match ?x with _ => _ end) => destruct x
  | |- preserves _ (modify (set_bereaved true)) => intros ?; apply R_bereaved
  | |- preserves _ (read_rewrite _) => apply preserves_read_rewrite
  | |- preserves _ (read_action _) => apply preserves_read_action
  | |- preserves _ (get _) => apply preserves_get
  | |- preserves _ (ret _) => apply preserves_const
  | |- preserves _ (emit _) => apply preserves_const
  | |- preserves _ (exit _) => apply preserves_const
  | |- preserves _ abort => apply preserves_const
  | |- preserves _ image => apply preserves_const
  | |- preserves _ undefined => apply preserves_const
  | |- preserves _ (PRINTERR _ _) => unfold PRINTERR
  | |- preserves _ (DEBUG _ _) => unfold DEBUG
  | |- preserves _ (assert _) => unfold assert
  end.

Lemma preserves_forward_signal e s : preserves R (forward_signal e s).
Proof.
  unfold forward_signal, translate_signal, do_action. repeat preserves_step.
Qed.

Lemma preserves_process_count e : preserves R (process_count e).
Proof.
  unfold process_count. destruct (env_proc e) as [entries|];
    [|repeat preserves_step].
  generalize 0. induction entries as [|d entries IH]; intros count;
    cbn [process_count_loop]; repeat (preserves_step || apply IH).
Qed.

Lemma preserves_reap_loop e ws : preserves R (reap_loop e ws).
Proof.
  induction ws as [|[killed_pid status] ws IH]; cbn [reap_loop];
    repeat (preserves_step || apply IH || apply preserves_forward_signal).
Qed.

Lemma preserves_handle_signal e s : preserves R (handle_signal e s).
Proof.
  unfold handle_signal.
  repeat (preserves_step || apply preserves_reap_loop
          || apply preserves_forward_signal || apply preserves_process_count).
Qed.

Lemma preserves_pump turns : preserves R (pump turns).
Proof.
  induction turns as [|t turns IH]; cbn [pump];
    repeat (preserves_step || apply IH || apply preserves_handle_signal).
Qed.
End Preserved.

(** X2. However many signals the pump handles, it writes none of the
    two tables, [child_pid], [debug], [use_setsid] and
    [survive_bereaving]: they are what they were when the pump started. *)
Theorem pump_keeps_configuration turns g : same_config g (pump turns g).1.2.
Proof.
  apply (preserves_pump same_config same_config_refl same_config_trans).
  intros g0. by repeat split.
Qed.

(** X3. The [bereaved] flag is never cleared: once the direct child has
    been reaped it stays set through every later turn of the pump. *)
Theorem pump_keeps_bereaved turns g :
  bereaved g = true → bereaved (pump turns g).1.2 = true.
Proof.
  apply (preserves_pump bereaved_stays); unfold bereaved_stays; auto.
Qed.

(** ** Further properties: whom the supervisor signals *)

Lemma kills_within_nil {A} P (m : M A) :
  (∀ g, kills (m g).2 = []) → kills_within P m.
Proof. intros H g. rewrite H. constructor. Qed.

Lemma kills_within_weaken {A} (P Q : globals → Z * Z → Prop) (m : M A) :
  (∀ g k, P g k → Q g k) → kills_within P m → kills_within Q m.
Proof. intros HPQ Hm g. eapply Forall_impl; [apply Hm|]. apply HPQ. Qed.

Lemma kills_within_bind {A B} P (m : M A) (k : A → M B) :
  (∀ g g' x, same_config g g' → P g' x → P g x) →
  kills_within P m → frames m → (∀ a, kills_within P (k a)) →
  kills_within P (bind m k).
Proof.
  intros Hinv Hm Hfr Hk g. unfold bind. specialize (Hm g). specialize (Hfr g).
  destruct (m g) as [[r g1] t1]; cbn [fst snd] in *.
  destruct r; cbn [fst snd]; try done.
  specialize (Hk a g1). destruct (k a g1) as [[r2 g2] t2]; cbn [fst snd] in *.
  rewrite kills_app. apply Forall_app. split; [done|].
  eapply Forall_impl; [apply Hk|]. intros x. by apply Hinv.
Qed.

Lemma quiet_process_count e : quiet (process_count e).
Proof.
  intros g. unfold process_count. destruct (env_proc e) as [entries|]; [|done].
  by destruct (process_count_loop_eq entries g 0 ltac:(done)) as (t & -> & Hk & _).
Qed.

Lemma child_or_self_config self g g' x :
  same_config g g' → child_or_self g' self x → child_or_self g self x.
Proof.
  intros Hc [Ht|Hs]; [left|by right]. by rewrite <- (same_config_target g g').
Qed.

Lemma kills_within_forward_signal self e s :
  kills_within (λ g, child_or_self g self) (forward_signal e s).
Proof.
  intros g. destruct (forward_signal_kills e s g) as [->|[n ->]];
    repeat constructor.
Qed.

Ltac solve_frames :=
  solve [ repeat (frames_step || apply frames_DEBUG || apply frames_PRINTERR
                  || apply frames_forward_signal || apply frames_reap_loop
                  || apply frames_process_count || unfold assert) ].

Ltac kills_step self :=
  lazymatch goal with
  | |- kills_within _ (bind _ _) =>
      apply kills_within_bind;
        [apply (child_or_self_config self) | | solve_frames | intros ?]
  | |- kills_within _ (if ?b then _ else _) => destruct b
  | |- kills_within _ (forward_signal _ _) => apply kills_within_forward_signal
  | |- kills_within _ (DEBUG _ _) =>
      apply kills_within_nil; intros ?; apply quiet_DEBUG
  | |- kills_within _ (process_count _) =>
      apply kills_within_nil; intros ?; apply quiet_process_count
  | |- kills_within _ (assert _) => unfold assert
  | |- kills_within _ (emit (EKill _ _)) =>
      intros ?; repeat constructor; by right
  | |- kills_within _ _ => by apply kills_within_nil
  end.

Lemma kills_within_reap_loop e ws :
  kills_within (λ g, child_or_self g (env_getpid e)) (reap_loop e ws).
Proof.
  induction ws as [|[killed_pid status] ws IH]; cbn [reap_loop];
    repeat (apply IH || kills_step (env_getpid e)).
Qed.

(** In one handler run every kill goes to the child (or its group), or
    is the SIGSTOP the supervisor sends to itself. *)
Lemma kills_within_handle_signal e s :
  kills_within (λ g, child_or_self g (env_getpid e)) (handle_signal e s).
Proof.
  unfold handle_signal.
  repeat (apply kills_within_reap_loop || kills_step (env_getpid e)).
Qed.

Lemma pump_kill_config turns g g' x :
  same_config g g' → pump_kill g' turns x → pump_kill g turns x.
Proof.
  intros Hc [Ht|Hs]; [left|by right]. by rewrite <- (same_config_target g g').
Qed.

(** X4. The supervisor signals nobody but its child and itself: every
    kill the pump issues is addressed to [child_pid] (to [-child_pid]
    in setsid mode), or is a SIGSTOP sent to its own PID. *)
Theorem pump_kill_targets turns g :
  Forall (pump_kill g turns) (kills (pump turns g).2).
Proof.
  revert g. change (kills_within (λ g, pump_kill g turns) (pump turns)).
  induction turns as [|t turns IH]; cbn [pump]; [by apply kills_within_nil|].
  apply kills_within_bind.
  - apply pump_kill_config.
  - repeat first
      [ apply kills_within_bind;
          [apply pump_kill_config | | solve_frames | intros ?]
      | match goal with |- kills_within _ (if ?b then _ else _) => destruct b end
      | by apply kills_within_nil
      | apply kills_within_nil; intros ?; apply quiet_DEBUG ].
  - solve_frames.
  - intros signum. apply kills_within_bind.
    + apply pump_kill_config.
    + eapply kills_within_weaken; [|apply kills_within_handle_signal].
      intros g k [Hc|Hs]; [by left|right]. rewrite Hs. split; [done|].
      exists t. split; [apply list_elem_of_here|done].
    + apply frames_handle_signal.
    + intros _. eapply kills_within_weaken; [|apply IH].
      intros g k [Hc|(Hs & t' & Hin & Hp)]; [by left|right].
      split; [done|]. exists t'. split; [by apply list_elem_of_further|done].
Qed.

(** ** Further properties: forwarding *)

(** X5. A signal from 1 to MAXSIG other than SIGCHLD whose slot is not
    an action is forwarded with exactly one kill to the child (or its
    group): the signal itself when the slot is unset, the slot's value
    otherwise -- the table is consulted once, rewrites do not chain.
    For SIGTSTP, SIGTTOU and SIGTTIN the supervisor then sends SIGSTOP
    to itself.  Nothing is forked and no global changes. *)
Theorem handle_signal_forwards_translated e S g v :
  1 ≤ S ≤ MAXSIG → S ≠ SIGCHLD →
  signal_rewrite g !! Z.to_nat S = Some v → v ≠ ACTION →
  let '(r, g', t) := handle_signal e S g in
  r = Ret tt ∧ g' = g ∧
  kills t = (target g, if v =? UNSET then S else v) ::
            (if is_tty_signal S then [(env_getpid e, SIGSTOP)] else []) ∧
  forks t = [].
Proof.
  intros HS Hne Hv Hact.
  rewrite (handle_signal_forward e S g Hne).
  rewrite (forward_signal_kill e S g v HS Hv Hact). unfold UNSET.
  split_and!; [done..| |].
  - destruct (is_tty_signal S), (v =? -1);
      by repeat (rewrite ?kills_app, ?kills_dbg, ?kills_cons_kill).
  - destruct (is_tty_signal S), (v =? -1);
      by repeat (rewrite ?forks_app, ?forks_dbg, ?forks_cons_kill).
Qed.

(** A signal number outside 1..MAXSIG is not looked up. *)
Lemma translate_signal_out_of_range S g :
  S ≤ 0 ∨ MAXSIG < S → translate_signal S g = (Ret S, g, []).
Proof.
  intros HS. unfold translate_signal.
  by replace ((S <=? 0) || (S >? MAXSIG)) with true by lia.
Qed.

(** The handler on -1, which is what a failed sigtimedwait leaves in
    [signum]: the "ignored" branch of [forward_signal]. *)
Lemma handle_signal_minus_one e g :
  handle_signal e (-1) g =
    (Ret tt, g,
     dbg g "Received signal %d.\n" [AInt (-1)] ++
     dbg g "Not forwarding signal %d to children (ignored).\n" [AInt (-1)]).
Proof.
  rewrite (handle_signal_forward e (-1) g) by done.
  unfold forward_signal.
  rewrite (bind_Ret _ _ _ _ _ _
             (translate_signal_out_of_range (-1) g ltac:(lia))).
  cbv beta. change (-1 =? -2) with false. change (-1 =? -1) with true.
  cbn [negb]. rewrite DEBUG_eq. change (is_tty_signal (-1)) with false.
  cbn [app]. by rewrite app_nil_r.
Qed.

(** X6. What the pump does when sigtimedwait fails.  With EINVAL or
    EINTR it reports a bug and exits with code 1 without running the
    handler.  With EAGAIN (the one-second timeout) it runs the handler
    exactly as for SIGCHLD.  With any other errno the handler is run on
    -1, which sends nothing and changes nothing, and the pump goes on. *)
Theorem pump_wait_failure t turns g :
  tu_signum t = -1 →
  pump (t :: turns) g =
    if tu_errno t =? EINVAL then
      (Exit 1, g, [EStderr "[dumb-init] Invalid timeout, report this as a bug!\n" []])
    else if tu_errno t =? EINTR then
      (Exit 1, g,
       [EStderr "[dumb-init] Wait interrupted by a signal. This should never happen. Report this as a bug!\n" []])
    else if tu_errno t =? EAGAIN then
      let '(r, g', tr) := bind (handle_signal (tu_env t) SIGCHLD) (λ _, pump turns) g in
      (r, g', dbg g "Heartbeat...\n" [] ++ tr)
    else
      let '(r, g', tr) := pump turns g in
      (r, g',
       dbg g "Received signal %d.\n" [AInt (-1)] ++
       dbg g "Not forwarding signal %d to children (ignored).\n" [AInt (-1)] ++ tr).
Proof.
  intros Hs. cbn [pump]. rewrite Hs, Z.eqb_refl.
  destruct (tu_errno t =? EINVAL); [by repeat mstep|].
  destruct (tu_errno t =? EINTR); [by repeat mstep|].
  destruct (tu_errno t =? EAGAIN); cbv iota.
  - rewrite bind_assoc. mstep. by rewrite bind_ret.
  - rewrite bind_ret.
    rewrite (bind_Ret _ _ _ _ _ _ (handle_signal_minus_one (tu_env t) g)).
    destruct (pump turns g) as [[r g'] tr]. by rewrite app_assoc.
Qed.

(** ** Further properties: reaping without exiting *)

Lemma process_count_eq e g :
  ∃ t, process_count e g = (Ret (counted e), g, t) ∧ kills t = [] ∧ forks t = [].
Proof.
  unfold process_count, counted. destruct (env_proc e) as [entries|].
  - apply (process_count_loop_eq entries g 0). done.
  - by eexists.
Qed.

Lemma reap_loop_direct_survive e g status ws :
  child_pid g > 0 → reapable status = true → survive_bereaving g = true →
  reap_loop e ((child_pid g, status) :: ws) g =
    (let '(r, g', t) := reap_loop e ws (set_bereaved true g) in
     (r, g',
      dbg_reaped g (child_pid g, status) ++
      dbg g "Child exited with status %d. Stay alive for your grandchildren.\n"
          [AInt (exit_status_of status)] ++ t)).
Proof.
  intros Hpos Hst Hsb. cbn [reap_loop]. replace (child_pid g >? 0) with true by lia.
  unfold dbg_reaped, exit_status_of, reapable in *. cbn [fst snd].
  destruct (WIFEXITED status); cbn [orb] in Hst; [|rewrite Hst; unfold assert];
    repeat mstep; rewrite Z.eqb_refl; repeat mstep;
    cbn [survive_bereaving set_bereaved]; rewrite Hsb; cbn [negb];
    repeat mstep;
    destruct (reap_loop e ws (set_bereaved true g)) as [[r g'] t];
    by rewrite ?app_assoc.
Qed.

Lemma reap_loop_quietly e ws : ∀ g,
  Forall (reaped_quietly g) ws →
  ∃ g' t, reap_loop e ws g = (Ret tt, g', t) ∧ same_config g g' ∧
          bereaved g' = bereaved g || child_among g ws ∧
          kills t = [] ∧ forks t = [].
Proof.
  induction ws as [|[pid status] ws IH]; intros g Hall.
  - exists g, []. split_and!;
      [done|apply same_config_refl|by rewrite orb_false_r|done|done].
  - apply Forall_cons in Hall as [(Hpos & Hst & Hsb) Hall]. cbn [fst snd] in *.
    cbn [child_among existsb fst].
    destruct (Z.eqb_spec pid (child_pid g)) as [->|Hne].
    + rewrite (reap_loop_direct_survive e g status ws Hpos Hst (Hsb eq_refl)).
      destruct (IH (set_bereaved true g) Hall) as (g' & t & -> & Hc & Hb & Hk & Hf).
      exists g'. eexists. split_and!; [done|exact Hc|by rewrite Hb, orb_true_r| |].
      * by rewrite !kills_app, kills_dbg_reaped, kills_dbg, Hk.
      * by rewrite !forks_app, forks_dbg_reaped, forks_dbg, Hf.
    + rewrite (reap_loop_other e g (pid, status) ws) by done.
      destruct (IH g Hall) as (g' & t & -> & Hc & Hb & Hk & Hf).
      exists g'. eexists. split_and!; [done..| |].
      * by rewrite kills_app, kills_dbg_reaped, Hk.
      * by rewrite forks_app, forks_dbg_reaped, Hf.
Qed.

(** X7. A SIGCHLD run that reaps only children whose death does not end
    the supervisor (any child in survive-bereaving mode, any but the
    direct child otherwise) sends no signal and forks nothing.  The
    [bereaved] flag is set if the direct child was among them.  The run
    ends in exit(0) exactly when the supervisor is then bereaved in
    survive-bereaving mode and [process_count] answers at most 1;
    otherwise the handler returns. *)
Theorem reaping_without_exit e g :
  Forall (reaped_quietly g) (env_waitpid e) →
  let '(r, g', t) := handle_signal e SIGCHLD g in
  same_config g g' ∧
  bereaved g' = bereaved g || child_among g (env_waitpid e) ∧
  kills t = [] ∧ forks t = [] ∧
  r = if bereaved g' && survive_bereaving g && (counted e <=? 1)
      then Exit 0 else Ret tt.
Proof.
  intros Hall. unfold handle_signal. mstep. rewrite Z.eqb_refl.
  destruct (reap_loop_quietly e _ g Hall) as (g' & t & Hr & Hc & Hb & Hk & Hf).
  rewrite (bind_Ret _ _ _ _ _ _ Hr). repeat mstep.
  destruct Hc as (Hc1 & Hc2 & Hc3 & Hc4 & Hc5 & Hc6). rewrite Hc6.
  destruct (bereaved g' && survive_bereaving g) eqn:Hbs.
  - destruct (process_count_eq e g') as (tc & Hpc & Hkc & Hfc).
    rewrite (bind_Ret _ _ _ _ _ _ Hpc). repeat mstep.
    destruct (counted e <=? 1); repeat mstep; unfold exit, ret; rewrite ?Hbs;
      (split_and!; [by repeat split|done| | |done]);
      by repeat (rewrite ?kills_app, ?forks_app, ?kills_dbg, ?forks_dbg,
                   ?Hk, ?Hf, ?Hkc, ?Hfc).
  - unfold ret. rewrite ?Hbs. split_and!; [by repeat split|done| | |done];
      by repeat (rewrite ?kills_app, ?forks_app, ?kills_dbg, ?forks_dbg, ?Hk, ?Hf).
Qed.

(** ** Further properties: the configuration after parsing *)

(** What [parse_command] returns, in terms of the globals its option
    loop ended with. *)
Lemma parse_command_Ret_exact cl g0 cmd g t :
  parse_command cl g0 = (Ret cmd, g, t) →
  ∃ g1 t1,
    parse_options cl (cl_opts cl) g0 = (Ret tt, g1, t1) ∧
    cmd = cl_cmd cl ∧ cl_cmd cl ≠ [] ∧
    g = if use_setsid (after_env cl g1)
        then set_signal_rewrite
               (sigstop_defaults (signal_rewrite (after_env cl g1)))
               (after_env cl g1)
        else after_env cl g1.
Proof.
  intros Hrun. unfold parse_command in Hrun.
  apply bind_inv_Ret in Hrun as ([] & g1 & t1 & t2 & Hopts & Htail & _).
  exists g1, t1. split; [done|].
  by apply parse_command_tail_Ret in Htail.
Qed.

(** An option never writes -1 into the rewrite table. *)
Lemma slot_write_set S o v : slot_write S o = Some v → v ≠ UNSET.
Proof.
  destruct o as [| | | | |optarg|optarg|]; try done; cbn [slot_write].
  - destruct (sscanf_d_colon_d optarg) as [[n vals]|]; [|done].
    repeat case_match; try done. intros ?. simplify_eq.
    unfold UNSET, MAXSIG in *. lia.
  - destruct (action_of S (Opt_a optarg)); [|done]. by intros [= <-].
Qed.

Lemma last_write_set S opts v : last_write S opts = Some v → v ≠ UNSET.
Proof.
  unfold last_write. induction opts as [|o opts IH] using rev_ind; [done|].
  rewrite last_omap_snoc. destruct (slot_write S o) as [w|] eqn:Hw; [|done].
  intros [= <-]. by eapply slot_write_set.
Qed.

Lemma is_tty_signal_spec S :
  0 ≤ S →
  is_tty_signal S = true ↔
  Z.to_nat S = Z.to_nat SIGTSTP ∨ Z.to_nat S = Z.to_nat SIGTTOU ∨
  Z.to_nat S = Z.to_nat SIGTTIN.
Proof.
  intros HS. unfold is_tty_signal, SIGTSTP, SIGTTOU, SIGTTIN. lia.
Qed.

(** Each slot of the rewrite table after [parse_command]. *)
Lemma parse_command_slot cl cmd g t S :
  run (parse_command cl) = (Ret cmd, g, t) → 0 ≤ S ≤ MAXSIG →
  signal_rewrite g !! Z.to_nat S =
    Some (configured_slot (cl_opts cl) (use_setsid g) S).
Proof.
  intros Hrun HS.
  apply parse_command_Ret_exact in Hrun as (g1 & t1 & Hopts & _ & _ & Hg).
  apply (parse_options_parsed cl _ [] _ _ _ parsed_initial) in Hopts
    as [_ Hinv].
  destruct (Hinv S HS) as [Hrw _]. cbn [app] in Hrw.
  destruct (after_env_tables cl g1) as [Htab _].
  unfold configured_slot.
  destruct (use_setsid (after_env cl g1)) eqn:Hs; subst g.
  - cbn [signal_rewrite use_setsid set_signal_rewrite]. rewrite Hs, Htab.
    rewrite sigstop_defaults_lookup, Hrw. cbn [andb].
    destruct (last_write S (cl_opts cl)) as [v|] eqn:Hw;
      cbn [default from_option fmap option_fmap option_map id].
    + apply last_write_set in Hw. unfold UNSET in Hw.
      replace (v =? -1) with false by lia. by case_decide.
    + pose proof (is_tty_signal_spec S ltac:(lia)) as Htty.
      case_decide as Hd.
      * apply Htty in Hd. by rewrite Hd.
      * destruct (is_tty_signal S); [|done]. destruct Hd. by apply Htty.
  - rewrite Hs, Htab, Hrw. cbn [andb]. by destruct (last_write S (cl_opts cl)).
Qed.

(** X8. The two tables after [parse_command]: both keep their 65
    slots; each rewrite slot holds what the last option that wrote it
    stored (a later -r or -a overrides an earlier one, a bulk rewrite
    overrides every earlier option), and if no option wrote it, SIGSTOP
    for SIGTSTP, SIGTTOU and SIGTTIN in setsid mode and -1 otherwise;
    each action slot holds the command of the last -a given for it, or
    the empty string. *)
Theorem tables_after_parsing cl cmd g t :
  run (parse_command cl) = (Ret cmd, g, t) →
  tables_ok g ∧
  ∀ S, 0 ≤ S ≤ MAXSIG →
    signal_rewrite g !! Z.to_nat S =
      Some (configured_slot (cl_opts cl) (use_setsid g) S) ∧
    signal_action g !! Z.to_nat S =
      Some (default EmptyString (last_action S (cl_opts cl))).
Proof.
  intros Hrun.
  assert (∀ S, 0 ≤ S ≤ MAXSIG →
            signal_rewrite g !! Z.to_nat S =
              Some (configured_slot (cl_opts cl) (use_setsid g) S)) as Hslot.
  { intros S HS. by eapply parse_command_slot. }
  apply parse_command_Ret_exact in Hrun as (g1 & t1 & Hopts & _ & _ & Hg).
  apply (parse_options_parsed cl _ [] _ _ _ parsed_initial) in Hopts
    as [[Hlr Hla] Hinv].
  destruct (after_env_tables cl g1) as [Hr Ha].
  assert (signal_action g = signal_action g1) as Hact.
  { subst g. by destruct (use_setsid (after_env cl g1)). }
  split.
  - split; [|by rewrite Hact].
    subst g. destruct (use_setsid (after_env cl g1)); cbn [signal_rewrite set_signal_rewrite];
      rewrite Hr; [|done].
    unfold sigstop_defaults. by rewrite !sigstop_default_length.
  - intros S HS. split; [by apply Hslot|]. rewrite Hact. by apply Hinv.
Qed.

Lemma parse_options_flags cl opts : ∀ seen g g' t,
  parsed seen g →
  parse_options cl opts g = (Ret tt, g', t) →
  debug g' = debug g || existsb is_Opt_v opts ∧
  use_setsid g' = use_setsid g && negb (existsb is_Opt_c opts) ∧
  survive_bereaving g' = survive_bereaving g || existsb is_Opt_b opts ∧
  child_pid g' = child_pid g ∧ bereaved g' = bereaved g.
Proof.
  induction opts as [|o opts IH]; intros seen g g' t Hinv Hrun.
  - injection Hrun as <- _. cbn [existsb negb].
    by rewrite !orb_false_r, andb_true_r.
  - cbn [parse_options] in Hrun.
    apply bind_inv_Ret in Hrun as ([] & g1 & t1 & t2 & Hstep & Hrest & _).
    cbn [existsb].
    destruct o as [| | | | |optarg|optarg|]; try done.
    + injection Hstep as <- _.
      destruct (IH (seen ++ [Opt_v]) (set_debug true g) _ _
                  (parsed_snoc_flag seen Opt_v g (set_debug true g) Hinv eq_refl eq_refl
                     ltac:(done) ltac:(done)) Hrest)
        as (-> & -> & -> & -> & ->).
      cbn. by rewrite orb_true_r.
    + injection Hstep as <- _.
      destruct (IH (seen ++ [Opt_c]) (set_use_setsid false g) _ _
                  (parsed_snoc_flag seen Opt_c g (set_use_setsid false g) Hinv eq_refl eq_refl
                     ltac:(done) ltac:(done)) Hrest)
        as (-> & -> & -> & -> & ->).
      cbn. by rewrite andb_false_r.
    + injection Hstep as <- _.
      destruct (IH (seen ++ [Opt_b]) (set_survive_bereaving true g) _ _
                  (parsed_snoc_flag seen Opt_b g (set_survive_bereaving true g) Hinv eq_refl eq_refl
                     ltac:(done) ltac:(done)) Hrest)
        as (-> & -> & -> & -> & ->).
      cbn. by rewrite orb_true_r.
    + destruct (IH (seen ++ [Opt_r optarg]) _ _ _
                  (parsed_snoc_rewrite seen optarg g g1 t1 Hinv Hstep) Hrest)
        as (-> & -> & -> & -> & ->).
      destruct Hinv as [[Hlr _] _].
      by apply parse_rewrite_signum_Ret in Hstep as (? & ? & _ & _ & _ & ->).
    + destruct (IH (seen ++ [Opt_a optarg]) _ _ _
                  (parsed_snoc_action seen optarg g g1 t1 Hinv Hstep) Hrest)
        as (-> & -> & -> & -> & ->).
      destruct Hinv as [Hok _].
      by apply parse_action_Ret in Hstep as (? & ? & _ & _ & ->).
Qed.

(** X9. The flags after [parse_command]: debug output is on exactly
    when -v was given or DUMB_INIT_DEBUG is "1"; setsid mode is on
    exactly when -c was not given and DUMB_INIT_SETSID is not "0";
    survive-bereaving is on exactly when -b was given.  The command
    returned is the non-empty rest of the command line, [child_pid] is
    still -1 and [bereaved] is still off. *)
Theorem flags_after_parsing cl cmd g t :
  run (parse_command cl) = (Ret cmd, g, t) →
  debug g = existsb is_Opt_v (cl_opts cl) || env_is (cl_DUMB_INIT_DEBUG cl) "1" ∧
  use_setsid g =
    negb (existsb is_Opt_c (cl_opts cl)) && negb (env_is (cl_DUMB_INIT_SETSID cl) "0") ∧
  survive_bereaving g = existsb is_Opt_b (cl_opts cl) ∧
  child_pid g = -1 ∧ bereaved g = false ∧
  cmd = cl_cmd cl ∧ cmd ≠ [].
Proof.
  intros Hrun.
  apply parse_command_Ret_exact in Hrun as (g1 & t1 & Hopts & -> & Hne & Hg).
  apply (parse_options_flags cl _ [] _ _ _ parsed_initial) in Hopts
    as (Hd & Hs & Hb & Hp & Hbe).
  cbn [initial_globals debug use_setsid survive_bereaving child_pid bereaved
       orb andb] in *.
  assert (debug g = debug (after_env cl g1) ∧
          use_setsid g = use_setsid (after_env cl g1) ∧
          survive_bereaving g = survive_bereaving (after_env cl g1) ∧
          child_pid g = child_pid (after_env cl g1) ∧
          bereaved g = bereaved (after_env cl g1)) as (-> & -> & -> & -> & ->).
  { subst g. by destruct (use_setsid (after_env cl g1)) eqn:E; cbn; rewrite ?E. }
  unfold after_env, env_is.
  destruct (cl_DUMB_INIT_DEBUG cl) as [debug_env|];
    [destruct (String.eqb debug_env "1")|];
    (destruct (cl_DUMB_INIT_SETSID cl) as [setsid_env|];
      [destruct (String.eqb setsid_env "0")|]);
    cbn; rewrite ?Hd, ?Hs, ?Hb, ?Hp, ?Hbe, ?orb_true_r, ?orb_false_r,
           ?andb_true_r, ?andb_false_r; done.
Qed.

(** ** Further properties: parsing and handling together *)

(** X10. Job control in setsid mode.  When no option wrote the slot of
    SIGTSTP, SIGTTOU or SIGTTIN, the supervisor answers that signal by
    sending SIGSTOP to the child's process group and then SIGSTOP to
    itself. *)
Theorem tty_signal_stops_group_and_self cl cmd g t0 e S p :
  run (parse_command cl) = (Ret cmd, g, t0) →
  use_setsid g = true → is_tty_signal S = true →
  last_write S (cl_opts cl) = None →
  let '(r, g', t) := handle_signal e S (set_child_pid p g) in
  r = Ret tt ∧ kills t = [(- p, SIGSTOP); (env_getpid e, SIGSTOP)].
Proof.
  intros Hrun Hs Htty Hw.
  assert (1 ≤ S ≤ MAXSIG ∧ S ≠ SIGCHLD) as [HS Hne].
  { unfold is_tty_signal, SIGTSTP, SIGTTOU, SIGTTIN, MAXSIG, SIGCHLD in *. lia. }
  pose proof (parse_command_slot cl cmd g t0 S Hrun ltac:(lia)) as Hslot.
  unfold configured_slot in Hslot. rewrite Hw, Hs, Htty in Hslot. cbn [andb] in Hslot.
  rewrite (handle_signal_forward e S _ Hne).
  rewrite (forward_signal_kill e S (set_child_pid p g) SIGSTOP HS Hslot ltac:(done)).
  cbn [SIGSTOP Z.eqb]. rewrite Htty. split; [done|].
  repeat (rewrite ?kills_app, ?kills_dbg, ?kills_cons_kill).
  unfold target. cbn [use_setsid child_pid set_child_pid]. by rewrite Hs.
Qed.

Lemma syscalls_app t1 t2 : syscalls (t1 ++ t2) = syscalls t1 ++ syscalls t2.
Proof. apply List.filter_app. Qed.

Lemma syscalls_dbg g fmt args : syscalls (dbg g fmt args) = [].
Proof. unfold dbg. by destruct (debug g). Qed.

(** X11. The subprocess side of an action.  After [-a S:cmd] was the
    last option to write slot S, the process in which the fork of
    [do_action] returned 0 unmasks all signals and calls
    execlp("/bin/bash", "/bin/bash", "-c", cmd) with exactly the command
    text of that option; it sends no signal, and if the exec fails it
    exits with code 1. *)
Theorem action_child_execs_command cl cmd g t0 e S p :
  run (parse_command cl) = (Ret cmd, g, t0) →
  1 ≤ S ≤ MAXSIG → S ≠ SIGCHLD →
  last_write S (cl_opts cl) = Some ACTION → env_fork e = 0 →
  ∃ c, last_action S (cl_opts cl) = Some c ∧
    let '(r, g', t) := handle_signal e S (set_child_pid p g) in
    r = (if env_exec_ok e then Image else Exit 1) ∧
    syscalls t = [EFork 0; EUnblockAll; EExec "/bin/bash" ["/bin/bash"; "-c"; c]] ∧
    kills t = [].
Proof.
  intros Hrun HS Hne Hw Hfork.
  destruct (last_write_action S _ Hw) as [c Hc]. exists c. split; [done|].
  pose proof (parse_command_slot cl cmd g t0 S Hrun ltac:(lia)) as Hslot.
  unfold configured_slot in Hslot. rewrite Hw in Hslot.
  apply parse_command_Ret in Hrun as (g1 & t1 & Hopts & Ha & _).
  apply (parse_options_parsed cl _ [] _ _ _ parsed_initial) in Hopts
    as [_ Hinv].
  destruct (Hinv S ltac:(lia)) as [_ Hact]. cbn [app] in Hact.
  rewrite <- Ha, Hc in Hact. cbn [default from_option id] in Hact.
  rewrite (handle_signal_forward e S _ Hne).
  rewrite (forward_signal_action e S (set_child_pid p g) HS Hslot).
  rewrite (do_action_eq e S (set_child_pid p g) c ltac:(lia) Hact).
  rewrite Hfork. cbn [Z.ltb Z.eqb Z.compare]. unfold dbg_action.
  destruct (env_exec_ok e); (split; [done|]); split.
  - by rewrite !syscalls_app, !syscalls_dbg.
  - by rewrite !kills_app, !kills_dbg.
  - by rewrite !syscalls_app, !syscalls_dbg.
  - by rewrite !kills_app, !kills_dbg.
Qed.

(** ** Further properties: main *)

Lemma only_prints_bind {A B} (m : M A) (k : A → M B) :
  only_prints m → (∀ a, only_prints (k a)) → only_prints (bind m k).
Proof.
  intros Hm Hk g. unfold bind. specialize (Hm g).
  destruct (m g) as [[r g1] t1]; cbn [fst snd] in *.
  destruct r; cbn [fst snd]; try done.
  specialize (Hk a g1). destruct (k a g1) as [[r2 g2] t2]; cbn [fst snd] in *.
  by apply Forall_app.
Qed.

Lemma only_prints_nil {A} (m : M A) : (∀ g, (m g).2 = []) → only_prints m.
Proof. intros H g. rewrite H. constructor. Qed.

Lemma only_prints_read_rewrite i : only_prints (read_rewrite i).
Proof. apply only_prints_nil. intros g. unfold read_rewrite. by repeat case_match. Qed.

Lemma only_prints_write_rewrite i v : only_prints (write_rewrite i v).
Proof. apply only_prints_nil. intros g. unfold write_rewrite. by repeat case_match. Qed.

Lemma only_prints_write_action i v : only_prints (write_action i v).
Proof. apply only_prints_nil. intros g. unfold write_action. by repeat case_match. Qed.

Ltac prints_step :=
  lazymatch goal with
  | |- only_prints (bind _ _) => apply only_prints_bind; [| intros ?]
  | |- only_prints (if ?b then _ else _) => destruct b
  | |- only_prints (match ?x with _ => _ end) => destruct x
  | |- only_prints (read_rewrite _) => apply only_prints_read_rewrite
  | |- only_prints (write_rewrite _ _) => apply only_prints_write_rewrite
  | |- only_prints (write_action _ _) => apply only_prints_write_action
  | |- only_prints (emit (EStderr _ _)) => intros ?; by repeat constructor
  | |- only_prints (PRINTERR _ _) => unfold PRINTERR
  | |- only_prints (DEBUG _ _) => unfold DEBUG
  | |- only_prints _ => by apply only_prints_nil
  end.

Lemma only_prints_rewrite_all n : ∀ i r, only_prints (rewrite_all n i r).
Proof.
  induction n as [|n IH]; intros i r; cbn [rewrite_all];
    repeat (apply IH || prints_step).
Qed.

Lemma only_prints_parse_rewrite_signum optarg :
  only_prints (parse_rewrite_signum optarg).
Proof.
  unfold parse_rewrite_signum, print_rewrite_signum_help.
  destruct (sscanf_d_colon_d optarg) as [[n vals]|]; [|prints_step].
  repeat case_match; repeat (apply only_prints_rewrite_all || prints_step).
Qed.

Lemma only_prints_parse_action optarg : only_prints (parse_action optarg).
Proof.
  unfold parse_action, print_action_help.
  destruct (sscanf_d_colon_n optarg) as [[status [|signum stored]]|];
    repeat prints_step.
Qed.

Lemma only_prints_parse_options cl opts : only_prints (parse_options cl opts).
Proof.
  induction opts as [|o opts IH]; cbn [parse_options]; [prints_step|].
  apply only_prints_bind; [|intros _; apply IH].
  destruct o; unfold print_help;
    repeat (apply only_prints_parse_rewrite_signum
            || apply only_prints_parse_action || prints_step).
Qed.

(** [parse_command] calls nothing but fprintf. *)
Lemma only_prints_parse_command cl : only_prints (parse_command cl).
Proof.
  unfold parse_command, parse_command_tail, set_rewrite_to_sigstop_if_not_defined.
  apply only_prints_bind; [apply only_prints_parse_options|intros _].
  repeat prints_step.
Qed.

Lemma syscalls_only_prints t : Forall is_stderr t → syscalls t = [].
Proof.
  induction 1 as [|ev t Hev _ IH]; [done|].
  by destruct ev.
Qed.

(** X12. [main] gets no further than [parse_command] does: when
    parsing ends the process (help, version, a refused option, no
    command), [main] ends the same way -- with the same exit code --
    with the same globals and the same output, having made no system
    call other than writing to stderr: no signal is blocked, nothing is
    forked. *)
Theorem main_stops_where_parsing_stops cl la turns g0 :
  (∀ cmd, (parse_command cl g0).1.1 ≠ Ret cmd) →
  let '(r, g, t) := main cl la turns g0 in
  ends_like (parse_command cl g0).1.1 r ∧
  g = (parse_command cl g0).1.2 ∧ t = (parse_command cl g0).2 ∧
  syscalls t = [].
Proof.
  intros Hstop. unfold main, bind at 1.
  pose proof (only_prints_parse_command cl g0) as Hp.
  destruct (parse_command cl g0) as [[r g] t]; cbn [fst snd] in *.
  destruct r as [cmd| | | |]; [by destruct (Hstop cmd)|..];
    by (split_and!; [done..|apply syscalls_only_prints]).
Qed.

(** X13. Without a command to run, a command line whose options are all
    accepted makes [main] print the short usage text and exit with code
    1; the environment variables are not looked at, the setsid defaults
    are not applied, and nothing is forked. *)
Theorem missing_command_exits cl la turns g0 g1 t1 :
  parse_options cl (cl_opts cl) g0 = (Ret tt, g1, t1) →
  cl_cmd cl = [] →
  main cl la turns g0 =
    (Exit 1, g1,
     t1 ++ [EStderr
              ("Usage: %s [option] program [args]\n" +:+
               "Try %s --help for full usage.\n")
              [AStr (cl_argv0 cl); AStr (cl_argv0 cl)]]).
Proof.
  intros Hopts Hcmd. unfold main, parse_command, parse_command_tail.
  rewrite Hcmd, !bind_assoc, (bind_Ret _ _ _ _ _ _ Hopts).
  by repeat mstep.
Qed.

Lemma install_dummy_eq n : ∀ i g,
  install_dummy n i g = (Ret tt, g, ESignal <$> seqZ i (Z.of_nat n)).
Proof.
  induction n as [|n IH]; intros i g; [done|].
  cbn [install_dummy]. mstep. rewrite IH.
  rewrite (seqZ_cons i (Z.of_nat (S n))) by lia.
  by replace (Z.pred (Z.of_nat (S n))) with (Z.of_nat n) by lia.
Qed.

Lemma syscalls_signals (l : list Z) : syscalls (ESignal <$> l) = ESignal <$> l.
Proof. induction l as [|x l IH]; [done|]. cbn. by f_equal. Qed.

Lemma syscalls_cons ev t :
  syscalls (ev :: t) =
    if match ev with EStderr _ _ => false | _ => true end
    then ev :: syscalls t else syscalls t.
Proof. done. Qed.

Ltac syscalls_norm :=
  repeat first
    [ rewrite syscalls_app | rewrite syscalls_dbg | rewrite syscalls_signals
    | rewrite syscalls_cons; cbv beta iota ].

(** X14. The launcher, once [parse_command] has returned.  [main]
    blocks all signals, installs the dummy handler for signals 1 to 64,
    in setsid mode tries to detach from the terminal, and forks.  If the
    fork fails it exits with code 1.  In the child it unblocks the
    signals, in setsid mode calls setsid (exiting with code 1 before any
    exec if that fails) and tries to take the terminal, then execs the
    command, exiting with code 2 if the exec fails.  In the parent it
    records the PID and runs the pump. *)
Theorem launcher_after_parsing cl la turns g0 cmd g t0 :
  parse_command cl g0 = (Ret cmd, g, t0) →
  let '(r, g', t) := main cl la turns g0 in
  if la_fork la <? 0 then
    r = Exit 1 ∧ syscalls t = before_fork g la ++ [EFork (la_fork la)]
  else if la_fork la =? 0 then
    if use_setsid g && (la_setsid la =? -1) then
      r = Exit 1 ∧
      syscalls t = before_fork g la ++ [EFork 0; EUnblockAll; ESetsid (-1)]
    else
      r = (if la_exec_ok la then Image else Exit 2) ∧
      syscalls t =
        before_fork g la ++ EFork 0 :: before_exec g la ++
        [EExec (hd EmptyString cmd) cmd]
  else
    (r, g') = (pump turns (set_child_pid (la_fork la) g)).1 ∧
    syscalls t =
      before_fork g la ++ EFork (la_fork la) ::
      syscalls (pump turns (set_child_pid (la_fork la) g)).2.
Proof.
  intros Hrun.
  pose proof (only_prints_parse_command cl g0) as Hp. rewrite Hrun in Hp.
  apply syscalls_only_prints in Hp. cbn [snd] in Hp.
  unfold main. rewrite (bind_Ret _ _ _ _ _ _ Hrun). mstep.
  rewrite (bind_Ret _ _ _ _ _ _ (install_dummy_eq 64 1 g)). repeat mstep.
  change (Z.of_nat 64) with MAXSIG. unfold before_fork, before_exec.
  destruct (use_setsid g) eqn:Hs; repeat mstep;
    [destruct (la_ioctl_notty la =? -1); repeat mstep|];
    cbn [child_pid set_child_pid use_setsid];
    (destruct (la_fork la <? 0) eqn:Hneg; repeat mstep;
     [|destruct (Z.eqb_spec (la_fork la) 0) as [Hz|Hz]; repeat mstep;
       [rewrite ?Hz; cbn [child_pid set_child_pid use_setsid]; rewrite ?Hs;
        cbn [andb]; repeat mstep;
        try (destruct (Z.eqb_spec (la_setsid la) (-1)) as [Hss|Hss]; repeat mstep;
             [rewrite ?Hss|destruct (la_ioctl_sctty la =? -1); repeat mstep]);
        destruct (la_exec_ok la); repeat mstep|]]).
  all: try (unfold exit, image; split; [done|]).
  all: try (syscalls_norm; rewrite Hp; by cbn [app]).
  all: destruct (pump turns (set_child_pid (la_fork la) g)) as [[r g'] t];
    split; [done|]; syscalls_norm; rewrite Hp; by cbn [app].
Qed.

(** ** Further properties: the text of an action *)














Lemma rewrite_all_never_exits R n : ∀ i g code g' t,
  rewrite_all n i R g ≠ (Exit code, g', t).
Proof.
  induction n as [|n IH]; intros i g code g' t; [done|].
  cbn [rewrite_all]. unfold bind at 1, write_rewrite at 1.
  destruct (in_bounds i); [|done].
  destruct (signal_rewrite g !! Z.to_nat i); [|done].
  match goal with |- context [rewrite_all n ?j R ?h] =>
    pose proof (IH j h) as Hn; destruct (rewrite_all n j R h) as [[r h'] t'] end.
  by destruct r.
Qed.

(** A handler that exits has printed its usage message and written
    nothing. *)
Lemma option_handler_exit optarg g code g' t :
  (parse_rewrite_signum optarg g = (Exit code, g', t) →
   code = 1 ∧ g' = g ∧ t = [rewrite_usage]) ∧
  (parse_action optarg g = (Exit code, g', t) →
   code = 1 ∧ g' = g ∧ t = [action_usage]).
Proof.
  split.
  - unfold parse_rewrite_signum.
    destruct (sscanf_d_colon_d optarg) as [[n vals]|] eqn:Hscan; [|done].
    repeat case_match; subst; try (by intros [= <- <- <-]).
    + intros H. by apply rewrite_all_never_exits in H.
    + unfold write_rewrite. by repeat case_match.
  - unfold parse_action.
    destruct (sscanf_d_colon_n optarg) as [[status [|S stored]]|] eqn:Hscan;
      try (by intros [= <- <- <-]).
    destruct ((status =? 1) && ((0 <=? S) && (S <=? MAXSIG))) eqn:Hrange;
      [|by intros [= <- <- <-]].
    destruct stored as [|position [|? ?]]; try done.
    mstep. unfold bind, write_action, write_rewrite.
    destruct (in_bounds S); [|done].
    destruct (signal_action g !! Z.to_nat S); [|done]. cbv beta iota.
    by destruct (signal_rewrite _ !! Z.to_nat S).
Qed.

(** X16. When the handler of a -r or of a -a option ends the process,
    it does so with exit code 1, having printed its usage text and
    nothing else, and without having written a slot of either table or
    any other global: the option is refused before anything is
    stored. *)
Theorem refused_option_writes_nothing optarg g :
  (∀ code, (parse_rewrite_signum optarg g).1.1 = Exit code →
     parse_rewrite_signum optarg g = (Exit 1, g, [rewrite_usage])) ∧
  (∀ code, (parse_action optarg g).1.1 = Exit code →
     parse_action optarg g = (Exit 1, g, [action_usage])).
Proof.
  split; intros code.
  - destruct (parse_rewrite_signum optarg g) as [[r g'] t] eqn:Hrun.
    cbn [fst]. intros ->.
    by apply (option_handler_exit optarg g code g' t) in Hrun as (-> & -> & ->).
  - destruct (parse_action optarg g) as [[r g'] t] eqn:Hrun.
    cbn [fst]. intros ->.
    by apply (option_handler_exit optarg g code g' t) in Hrun as (-> & -> & ->).
Qed.

(** ** The further properties at concrete inputs *)

(** The bereaved supervisor of [dumb-init -b sleep 60] through a SIGINT
    and a heartbeat. *)
Lemma pump_keeps_bereaved_witness :
  bereaved survivor = true ∧
  bereaved (pump [sigint_turn; heartbeat] survivor).1.2 = true.
Proof.
  split; [reflexivity|].
  apply (pump_keeps_bereaved [sigint_turn; heartbeat] survivor). reflexivity.
Defined.

(** [dumb-init -r 15:2 sleep 60] receiving SIGTERM. *)
Lemma handle_signal_forwards_translated_witness :
  (1 ≤ SIGTERM ≤ MAXSIG ∧ SIGTERM ≠ SIGCHLD ∧
   signal_rewrite (configured [Opt_r "15:2"]) !! Z.to_nat SIGTERM = Some 2 ∧
   2 ≠ ACTION) ∧
  let '(r, g', t) :=
    handle_signal (example_env [] 0 None) SIGTERM (configured [Opt_r "15:2"]) in
  r = Ret tt ∧ g' = configured [Opt_r "15:2"] ∧
  kills t = (target (configured [Opt_r "15:2"]), if 2 =? UNSET then SIGTERM else 2) ::
            (if is_tty_signal SIGTERM
             then [(env_getpid (example_env [] 0 None), SIGSTOP)] else []) ∧
  forks t = [].
Proof.
  split.
  - split_and!; [by vm_compute..|reflexivity|done].
  - apply (handle_signal_forwards_translated (example_env [] 0 None) SIGTERM
             (configured [Opt_r "15:2"]) 2); [by vm_compute..|reflexivity|done].
Defined.

(** A timeout followed by a SIGINT. *)
Lemma pump_wait_failure_witness :
  tu_signum heartbeat = -1 ∧
  pump (heartbeat :: [sigint_turn]) (configured []) =
    if tu_errno heartbeat =? EINVAL then
      (Exit 1, configured [],
       [EStderr "[dumb-init] Invalid timeout, report this as a bug!\n" []])
    else if tu_errno heartbeat =? EINTR then
      (Exit 1, configured [],
       [EStderr "[dumb-init] Wait interrupted by a signal. This should never happen. Report this as a bug!\n" []])
    else if tu_errno heartbeat =? EAGAIN then
      let '(r, g', tr) :=
        bind (handle_signal (tu_env heartbeat) SIGCHLD) (λ _, pump [sigint_turn])
             (configured []) in
      (r, g', dbg (configured []) "Heartbeat...\n" [] ++ tr)
    else
      let '(r, g', tr) := pump [sigint_turn] (configured []) in
      (r, g',
       dbg (configured []) "Received signal %d.\n" [AInt (-1)] ++
       dbg (configured []) "Not forwarding signal %d to children (ignored).\n"
           [AInt (-1)] ++ tr).
Proof.
  split; [reflexivity|].
  apply (pump_wait_failure heartbeat [sigint_turn] (configured [])). reflexivity.
Defined.

(** [dumb-init -b sleep 60]: a grandchild and the direct child are
    reaped, another grandchild is still there. *)
Lemma reaping_without_exit_witness :
  Forall (reaped_quietly (configured [Opt_b])) (env_waitpid family_reaped) ∧
  let '(r, g', t) := handle_signal family_reaped SIGCHLD (configured [Opt_b]) in
  same_config (configured [Opt_b]) g' ∧
  bereaved g' = bereaved (configured [Opt_b]) ||
                child_among (configured [Opt_b]) (env_waitpid family_reaped) ∧
  kills t = [] ∧ forks t = [] ∧
  r = if bereaved g' && survive_bereaving (configured [Opt_b]) &&
         (counted family_reaped <=? 1)
      then Exit 0 else Ret tt.
Proof.
  assert (Forall (reaped_quietly (configured [Opt_b])) (env_waitpid family_reaped))
    as Hall.
  { repeat constructor; by vm_compute. }
  split; [exact Hall|].
  apply (reaping_without_exit family_reaped (configured [Opt_b]) Hall).
Defined.

Lemma tables_after_parsing_witness :
  run (parse_command mixed_cmdline) =
    (Ret ["sleep"; "60"], parsed_globals mixed_cmdline, []) ∧
  tables_ok (parsed_globals mixed_cmdline) ∧
  ∀ S, 0 ≤ S ≤ MAXSIG →
    signal_rewrite (parsed_globals mixed_cmdline) !! Z.to_nat S =
      Some (configured_slot (cl_opts mixed_cmdline)
              (use_setsid (parsed_globals mixed_cmdline)) S) ∧
    signal_action (parsed_globals mixed_cmdline) !! Z.to_nat S =
      Some (default EmptyString (last_action S (cl_opts mixed_cmdline))).
Proof.
  split; [by vm_compute|].
  apply (tables_after_parsing mixed_cmdline ["sleep"; "60"]
           (parsed_globals mixed_cmdline) []). by vm_compute.
Defined.

Lemma flags_after_parsing_witness :
  run (parse_command env_cmdline) =
    (Ret ["sleep"; "60"], parsed_globals env_cmdline,
     [EStderr "[dumb-init] Not running in setsid mode.\n" []]) ∧
  debug (parsed_globals env_cmdline) =
    existsb is_Opt_v (cl_opts env_cmdline) ||
    env_is (cl_DUMB_INIT_DEBUG env_cmdline) "1" ∧
  use_setsid (parsed_globals env_cmdline) =
    negb (existsb is_Opt_c (cl_opts env_cmdline)) &&
    negb (env_is (cl_DUMB_INIT_SETSID env_cmdline) "0") ∧
  survive_bereaving (parsed_globals env_cmdline) =
    existsb is_Opt_b (cl_opts env_cmdline) ∧
  child_pid (parsed_globals env_cmdline) = -1 ∧
  bereaved (parsed_globals env_cmdline) = false ∧
  ["sleep"; "60"] = cl_cmd env_cmdline ∧ ["sleep"; "60"] ≠ [].
Proof.
  split; [by vm_compute|].
  apply (flags_after_parsing env_cmdline ["sleep"; "60"]
           (parsed_globals env_cmdline)
           [EStderr "[dumb-init] Not running in setsid mode.\n" []]).
  by vm_compute.
Defined.

(** [dumb-init sleep 60] receiving SIGTSTP. *)
Lemma tty_signal_stops_group_and_self_witness :
  (run (parse_command (example_cmdline [])) =
     (Ret ["sleep"; "60"], parsed_globals (example_cmdline []), []) ∧
   use_setsid (parsed_globals (example_cmdline [])) = true ∧
   is_tty_signal SIGTSTP = true ∧
   last_write SIGTSTP (cl_opts (example_cmdline [])) = None) ∧
  let '(r, g', t) :=
    handle_signal (example_env [] 0 None) SIGTSTP
      (set_child_pid 42 (parsed_globals (example_cmdline []))) in
  r = Ret tt ∧
  kills t = [(- 42, SIGSTOP); (env_getpid (example_env [] 0 None), SIGSTOP)].
Proof.
  split.
  - split_and!; by vm_compute.
  - apply (tty_signal_stops_group_and_self (example_cmdline []) ["sleep"; "60"]
             (parsed_globals (example_cmdline [])) []
             (example_env [] 0 None) SIGTSTP 42); by vm_compute.
Defined.

(** [dumb-init -a '10:echo hit' sleep 60]: the process in which the
    fork of the action returned 0. *)
Lemma action_child_execs_command_witness :
  (run (parse_command (example_cmdline [Opt_a "10:echo hit"])) =
     (Ret ["sleep"; "60"], parsed_globals (example_cmdline [Opt_a "10:echo hit"]), []) ∧
   1 ≤ 10 ≤ MAXSIG ∧ 10 ≠ SIGCHLD ∧
   last_write 10 (cl_opts (example_cmdline [Opt_a "10:echo hit"])) = Some ACTION ∧
   env_fork (example_env [] 0 None) = 0) ∧
  ∃ c, last_action 10 (cl_opts (example_cmdline [Opt_a "10:echo hit"])) = Some c ∧
    let '(r, g', t) :=
      handle_signal (example_env [] 0 None) 10
        (set_child_pid 42 (parsed_globals (example_cmdline [Opt_a "10:echo hit"]))) in
    r = (if env_exec_ok (example_env [] 0 None) then Image else Exit 1) ∧
    syscalls t = [EFork 0; EUnblockAll; EExec "/bin/bash" ["/bin/bash"; "-c"; c]] ∧
    kills t = [].
Proof.
  split.
  - split_and!; by vm_compute.
  - apply (action_child_execs_command (example_cmdline [Opt_a "10:echo hit"])
             ["sleep"; "60"]
             (parsed_globals (example_cmdline [Opt_a "10:echo hit"])) []
             (example_env [] 0 None) 10 42); by vm_compute.
Defined.

(** [dumb-init -h sleep 60]. *)
Lemma main_stops_where_parsing_stops_witness :
  (∀ cmd, (parse_command help_cmdline initial_globals).1.1 ≠ Ret cmd) ∧
  let '(r, g, t) := main help_cmdline example_launch [] initial_globals in
  ends_like (parse_command help_cmdline initial_globals).1.1 r ∧
  g = (parse_command help_cmdline initial_globals).1.2 ∧
  t = (parse_command help_cmdline initial_globals).2 ∧ syscalls t = [].
Proof.
  assert (∀ cmd, (parse_command help_cmdline initial_globals).1.1 ≠ Ret cmd) as H.
  { intros cmd. by vm_compute. }
  split; [exact H|].
  apply (main_stops_where_parsing_stops help_cmdline example_launch []
           initial_globals H).
Defined.

(** [dumb-init -b]. *)
Lemma missing_command_exits_witness :
  (parse_options bare_cmdline (cl_opts bare_cmdline) initial_globals =
     (Ret tt, set_survive_bereaving true initial_globals, []) ∧
   cl_cmd bare_cmdline = []) ∧
  main bare_cmdline example_launch [] initial_globals =
    (Exit 1, set_survive_bereaving true initial_globals,
     [] ++ [EStderr
              ("Usage: %s [option] program [args]\n" +:+
               "Try %s --help for full usage.\n")
              [AStr (cl_argv0 bare_cmdline); AStr (cl_argv0 bare_cmdline)]]).
Proof.
  split; [split; reflexivity|].
  apply (missing_command_exits bare_cmdline example_launch [] initial_globals
           (set_survive_bereaving true initial_globals) []); reflexivity.
Defined.

(** [dumb-init sleep 60] in the parent, before any signal arrives. *)
Lemma launcher_after_parsing_witness :
  parse_command (example_cmdline []) initial_globals =
    (Ret ["sleep"; "60"], parsed_globals (example_cmdline []), []) ∧
  let '(r, g', t) := main (example_cmdline []) example_launch [] initial_globals in
  if la_fork example_launch <? 0 then
    r = Exit 1 ∧
    syscalls t = before_fork (parsed_globals (example_cmdline [])) example_launch ++
                 [EFork (la_fork example_launch)]
  else if la_fork example_launch =? 0 then
    if use_setsid (parsed_globals (example_cmdline [])) &&
       (la_setsid example_launch =? -1) then
      r = Exit 1 ∧
      syscalls t = before_fork (parsed_globals (example_cmdline [])) example_launch ++
                   [EFork 0; EUnblockAll; ESetsid (-1)]
    else
      r = (if la_exec_ok example_launch then Image else Exit 2) ∧
      syscalls t =
        before_fork (parsed_globals (example_cmdline [])) example_launch ++
        EFork 0 :: before_exec (parsed_globals (example_cmdline [])) example_launch ++
        [EExec (hd EmptyString ["sleep"; "60"]) ["sleep"; "60"]]
  else
    (r, g') = (pump [] (set_child_pid (la_fork example_launch)
                          (parsed_globals (example_cmdline [])))).1 ∧
    syscalls t =
      before_fork (parsed_globals (example_cmdline [])) example_launch ++
      EFork (la_fork example_launch) ::
      syscalls (pump [] (set_child_pid (la_fork example_launch)
                           (parsed_globals (example_cmdline [])))).2.
Proof.
  split; [by vm_compute|].
  apply (launcher_after_parsing (example_cmdline []) example_launch []
           initial_globals ["sleep"; "60"] (parsed_globals (example_cmdline [])) []).
  by vm_compute.
Defined.


(** [-r 65:1] and [-a 70:echo]. *)
Lemma refused_option_writes_nothing_witness :
  ((parse_rewrite_signum "65:1" initial_globals).1.1 = Exit 1 ∧
   (parse_action "70:echo" initial_globals).1.1 = Exit 1) ∧
  parse_rewrite_signum "65:1" initial_globals =
    (Exit 1, initial_globals, [rewrite_usage]) ∧
  parse_action "70:echo" initial_globals =
    (Exit 1, initial_globals, [action_usage]).
Proof.
  split; [split; reflexivity|].
  split.
  - apply (refused_option_writes_nothing "65:1" initial_globals) with (code := 1).
    reflexivity.
  - apply (refused_option_writes_nothing "70:echo" initial_globals) with (code := 1).
    reflexivity.
Defined.
